(** * PortalChat: the persistence and authorization layer (server/db.py)

    A shallow embedding of the [Database] class of [src/server/db.py].
    The SQLite store behind the class is modelled as a record of tables,
    every table a list of rows in the order the rows were inserted.  A
    method of the class becomes a function of the same name: a read-only
    query is a function of the store, a method that writes or may raise is
    a computation in a small state-and-exception monad in which the store
    survives a raised exception, as it does in Python.

    What the embedding takes from the engine rather than from the file:
    - the connection never runs [PRAGMA foreign_keys = ON], so SQLite does
      not enforce the FOREIGN KEY clauses of the schema; PRIMARY KEY and
      CHECK constraints are enforced;
    - [commit] does not change what the one connection of the class sees,
      and is the identity here;
    - integers are unbounded, as Python's are: the 64-bit limit of an
      SQLite INTEGER, on row ids and on bound arguments, is out of reach
      of the modelled operations and is not modelled;
    - [CURRENT_TIMESTAMP] is read from the host clock: the moment of an
      insertion is an explicit argument [now], in seconds;
    - [self.server.log] writes to a log that no method reads back. *)

From stdpp Require Import base decidable option list sorting gmap strings.
From Stdlib Require Import ZArith Lia.

Local Open Scope string_scope.
Local Open Scope list_scope.
Local Open Scope Z_scope.

(** ** Rows of the seven tables *)

Module Server.
Record t := mk { server_id : Z; name : string }.
End Server.

Module User.
(** [users] has a TEXT primary key, so SQLite keeps a hidden integer
    [rowid] next to the two declared columns. *)
Record t := mk { rowid : Z; user_uuid : string; username : string }.
End User.

Module Membership.
Record t := mk { user_uuid : string; server_id : Z }.
End Membership.

Module Channel.
Record t := mk { channel_id : Z; name : string; server_id : Z }.
End Channel.

Module Message.
Record t := mk {
  message_id : Z;
  content : string;
  timestamp : Z;
  user_uuid : string;
  user_name : string;
  channel_id : Z
}.
End Message.

Module Role.
Record t := mk {
  role_id : Z;
  name : string;
  rank : Z;
  send_messages : Z;
  view_message_history : Z;
  mute_members : Z;
  kick_members : Z;
  ban_members : Z;
  manage_channels : Z;
  manage_server : Z;
  super_admin : Z
}.
End Role.

Module UserRole.
Record t := mk { user_uuid : string; role_id : Z; server_id : Z }.
End UserRole.

#[global] Instance server_eq_dec : EqDecision Server.t.
Proof. solve_decision. Defined.
#[global] Instance user_eq_dec : EqDecision User.t.
Proof. solve_decision. Defined.
#[global] Instance membership_eq_dec : EqDecision Membership.t.
Proof. solve_decision. Defined.
#[global] Instance channel_eq_dec : EqDecision Channel.t.
Proof. solve_decision. Defined.
#[global] Instance message_eq_dec : EqDecision Message.t.
Proof. solve_decision. Defined.
#[global] Instance role_eq_dec : EqDecision Role.t.
Proof. solve_decision. Defined.
#[global] Instance user_role_eq_dec : EqDecision UserRole.t.
Proof. solve_decision. Defined.

(** ** The store *)

(** The three [seq_] fields are the [sqlite_sequence] entries of the
    AUTOINCREMENT tables. *)
Record Database := mkDatabase {
  servers : list Server.t;
  users : list User.t;
  memberships : list Membership.t;
  channels : list Channel.t;
  messages : list Message.t;
  roles : list Role.t;
  user_roles : list UserRole.t;
  seq_channels : Z;
  seq_messages : Z;
  seq_roles : Z
}.

Definition empty_db : Database :=
  mkDatabase [] [] [] [] [] [] [] 0 0 0.

Definition add_server (x : Server.t) (db : Database) : Database :=
  mkDatabase (servers db ++ [x]) (users db) (memberships db) (channels db)
    (messages db) (roles db) (user_roles db)
    (seq_channels db) (seq_messages db) (seq_roles db).

Definition add_user (x : User.t) (db : Database) : Database :=
  mkDatabase (servers db) (users db ++ [x]) (memberships db) (channels db)
    (messages db) (roles db) (user_roles db)
    (seq_channels db) (seq_messages db) (seq_roles db).

Definition set_users (us : list User.t) (db : Database) : Database :=
  mkDatabase (servers db) us (memberships db) (channels db)
    (messages db) (roles db) (user_roles db)
    (seq_channels db) (seq_messages db) (seq_roles db).

Definition add_membership (x : Membership.t) (db : Database) : Database :=
  mkDatabase (servers db) (users db) (memberships db ++ [x]) (channels db)
    (messages db) (roles db) (user_roles db)
    (seq_channels db) (seq_messages db) (seq_roles db).

Definition add_channel (x : Channel.t) (db : Database) : Database :=
  mkDatabase (servers db) (users db) (memberships db) (channels db ++ [x])
    (messages db) (roles db) (user_roles db)
    (Channel.channel_id x) (seq_messages db) (seq_roles db).

Definition add_message (x : Message.t) (db : Database) : Database :=
  mkDatabase (servers db) (users db) (memberships db) (channels db)
    (messages db ++ [x]) (roles db) (user_roles db)
    (seq_channels db) (Message.message_id x) (seq_roles db).

Definition add_role (x : Role.t) (db : Database) : Database :=
  mkDatabase (servers db) (users db) (memberships db) (channels db)
    (messages db) (roles db ++ [x]) (user_roles db)
    (seq_channels db) (seq_messages db) (Role.role_id x).

Definition add_user_role (x : UserRole.t) (db : Database) : Database :=
  mkDatabase (servers db) (users db) (memberships db) (channels db)
    (messages db) (roles db) (user_roles db ++ [x])
    (seq_channels db) (seq_messages db) (seq_roles db).

(** ** Exceptions and the monad of the methods *)

(** The classes of the exceptions the methods raise; the message texts
    are left out. *)
Inductive exn :=
  | ValueError
  | IntegrityError
  | OperationalError.

Inductive outcome (A : Type) :=
  | Return (a : A)
  | Raise (e : exn).
Arguments Return {A} a.
Arguments Raise {A} e.

Definition M (A : Type) : Type := Database → outcome A * Database.

#[global] Instance M_ret : MRet M := λ A a db, (Return a, db).
#[global] Instance M_bind : MBind M := λ A B k m db,
  match m db with
  | (Return a, db') => k a db'
  | (Raise e, db') => (Raise e, db')
  end.

Definition raise {A} (e : exn) : M A := λ db, (Raise e, db).
Definition gets {A} (f : Database → A) : M A := λ db, (Return (f db), db).
Definition modify (f : Database → Database) : M unit := λ db, (Return tt, f db).

(** ** The SQL the queries use *)

(** [fetchone]: the first row of the result, or [None]. *)
Definition fetchone {A} (rows : list A) : option A := head rows.

(** [a JOIN b ON on]: every pair of rows that satisfies [on]. *)
Definition sql_join {A B} (on : A * B → Prop) `{!∀ p, Decision (on p)}
    (l : list A) (k : list B) : list (A * B) :=
  l ≫= λ a, (λ b, (a, b)) <$> filter (λ b, on (a, b)) k.

(** [a LEFT JOIN b ON on]: a left row without a partner is kept once,
    with NULL on the right. *)
Definition sql_left_join {A B} (on : A * B → Prop) `{!∀ p, Decision (on p)}
    (l : list A) (k : list B) : list (A * option B) :=
  l ≫= λ a,
    match filter (λ b, on (a, b)) k with
    | [] => [(a, None)]
    | bs => (λ b, (a, Some b)) <$> bs
    end.

(** [MAX(col)] without GROUP BY: NULL over no row. *)
Definition sql_max (vs : list Z) : option Z :=
  match vs with
  | [] => None
  | v :: vs' => Some (foldr Z.max v vs')
  end.

(** The largest rowid of a table, 0 for an empty one. *)
Definition max_rowid (ids : list Z) : Z := foldr Z.max 0 ids.

(** [ORDER BY key ASC].  Rows with equal keys keep the order of the scan,
    which is what SQLite's sorter does (SQL itself leaves it open). *)
Fixpoint order_insert {A} (key : A → Z) (x : A) (l : list A) : list A :=
  match l with
  | [] => [x]
  | y :: l' =>
      if decide (key x ≤ key y) then x :: y :: l'
      else y :: order_insert key x l'
  end.

Definition sql_order_by {A} (key : A → Z) (l : list A) : list A :=
  foldr (order_insert key) [] l.

(** A row with one column, as [fetchall] returns it: a 1-tuple. *)
Record tuple1 (A : Type) := Tuple1 { item0 : A }.
Arguments Tuple1 {A} item0.
Arguments item0 {A} t.

(** ** The INSERT statements, with the constraints the engine enforces *)

(** [INSERT INTO servers (name)]: INTEGER PRIMARY KEY, the next rowid. *)
Definition insert_server (name : string) : M Z := λ db,
  let id := max_rowid (Server.server_id <$> servers db) + 1 in
  (Return id, add_server (Server.mk id name) db).

(** [INSERT INTO users (user_uuid, username)]: PRIMARY KEY [user_uuid]. *)
Definition insert_user (uuid user_name : string) : M Z := λ db,
  if decide (uuid ∈ User.user_uuid <$> users db) then (Raise IntegrityError, db)
  else
    let id := max_rowid (User.rowid <$> users db) + 1 in
    (Return id, add_user (User.mk id uuid user_name) db).

(** [INSERT INTO memberships]: PRIMARY KEY [(user_uuid, server_id)]. *)
Definition insert_membership (user_uuid : string) (server_id : Z) : M unit := λ db,
  let row := Membership.mk user_uuid server_id in
  if decide (row ∈ memberships db) then (Raise IntegrityError, db)
  else (Return tt, add_membership row db).

(** AUTOINCREMENT: one more than the largest rowid the table ever had. *)
Definition next_autoincrement (ids : list Z) (seq : Z) : Z :=
  Z.max (max_rowid ids) seq + 1.

(** [INSERT INTO channels (name, server_id)]. *)
Definition insert_channel (name : string) (server_id : Z) : M Z := λ db,
  let id := next_autoincrement (Channel.channel_id <$> channels db) (seq_channels db) in
  (Return id, add_channel (Channel.mk id name server_id) db).

(** [INSERT INTO messages (content, user_uuid, user_name, channel_id)];
    [timestamp] takes its default, the moment [now] of the insertion. *)
Definition insert_message (now : Z) (content user_uuid user_name : string)
    (channel_id : Z) : M Z := λ db,
  let id := next_autoincrement (Message.message_id <$> messages db) (seq_messages db) in
  (Return id,
   add_message (Message.mk id content now user_uuid user_name channel_id) db).

(** [INSERT INTO roles (name, rank, ...)]: the CHECK on [rank] aborts the
    statement and leaves the table and its sequence as they were. *)
Definition insert_role (name : string) (rank : Z)
    (send_messages view_message_history mute_members kick_members
     ban_members manage_channels manage_server super_admin : Z) : M Z := λ db,
  if decide (0 ≤ rank ∧ rank ≤ 255) then
    let id := next_autoincrement (Role.role_id <$> roles db) (seq_roles db) in
    (Return id,
     add_role (Role.mk id name rank send_messages view_message_history
                 mute_members kick_members ban_members manage_channels
                 manage_server super_admin) db)
  else (Raise IntegrityError, db).

(** [INSERT OR IGNORE INTO user_roles]: a row that would break the
    PRIMARY KEY [(user_uuid, role_id, server_id)] is skipped. *)
Definition insert_or_ignore_user_role (user_uuid : string) (role_id server_id : Z)
    : M unit := λ db,
  let row := UserRole.mk user_uuid role_id server_id in
  if decide (row ∈ user_roles db) then (Return tt, db)
  else (Return tt, add_user_role row db).

(** [UPDATE users SET username = ? WHERE user_uuid = ?]. *)
Definition update_users_username (new_username uuid : string) : M unit :=
  modify (λ db,
    set_users
      ((λ u, if decide (User.user_uuid u = uuid)
             then User.mk (User.rowid u) (User.user_uuid u) new_username
             else u) <$> users db) db).

(** [self.conn.commit()]. *)
Definition commit : M unit := mret tt.

(** ** The read-only methods *)

Definition get_role_by_name (name : string) (db : Database) : option Role.t :=
  fetchone (filter (λ r, Role.name r = name) (roles db)).

(** The rows of [roles r JOIN user_roles ur ON r.role_id = ur.role_id
    WHERE ur.user_uuid = ? AND ur.server_id = ?]. *)
Definition held_roles (user_uuid : string) (server_id : Z) (db : Database)
    : list (Role.t * UserRole.t) :=
  filter (λ p, UserRole.user_uuid p.2 = user_uuid ∧ UserRole.server_id p.2 = server_id)
    (sql_join (λ p, Role.role_id p.1 = UserRole.role_id p.2) (roles db) (user_roles db)).

Definition get_roles_for_user_in_server (user_uuid : string) (server_id : Z)
    (db : Database) : list Role.t :=
  fst <$> held_roles user_uuid server_id db.

Definition valid_permissions : gset string :=
  {[ "send_messages"; "view_message_history"; "mute_members"; "kick_members";
     "ban_members"; "manage_channels"; "manage_server"; "super_admin" ]}.

(** What [r.{permission}] selects: the integer columns of [roles] by
    name; any other name is unknown to the engine. *)
Definition role_column (permission : string) : option (Role.t → Z) :=
  if decide (permission = "role_id") then Some Role.role_id
  else if decide (permission = "rank") then Some Role.rank
  else if decide (permission = "send_messages") then Some Role.send_messages
  else if decide (permission = "view_message_history") then Some Role.view_message_history
  else if decide (permission = "mute_members") then Some Role.mute_members
  else if decide (permission = "kick_members") then Some Role.kick_members
  else if decide (permission = "ban_members") then Some Role.ban_members
  else if decide (permission = "manage_channels") then Some Role.manage_channels
  else if decide (permission = "manage_server") then Some Role.manage_server
  else if decide (permission = "super_admin") then Some Role.super_admin
  else None.

(** [x == 1] for a column value [x] that may be NULL ([None] in Python). *)
Definition py_eq_1 (x : option Z) : bool :=
  match x with
  | Some v => bool_decide (v = 1)
  | None => false
  end.

Definition can_user (user_uuid : string) (server_id : Z) (permission : string)
    (db : Database) : outcome bool :=
  if decide (permission ∈ valid_permissions) then
    match role_column permission with
    | Some col =>
        let result :=
          fetchone [Tuple1 (sql_max (col ∘ fst <$> held_roles user_uuid server_id db))] in
        match result with
        | Some row => Return (py_eq_1 (item0 row))
        | None => Return false
        end
    | None => Raise OperationalError
    end
  else Raise ValueError.

(** [SELECT 1 FROM ... LIMIT 1] followed by [fetchone]. *)
Definition select_1 {A} (rows : list A) : option (tuple1 Z) :=
  fetchone ((λ _, Tuple1 1) <$> rows).

Definition is_not_None {A} (x : option A) : bool :=
  match x with
  | Some _ => true
  | None => false
  end.

Definition get_user (uuid : string) (db : Database) : option User.t :=
  fetchone (filter (λ u, User.user_uuid u = uuid) (users db)).

Definition get_server_by_name (server_name : string) (db : Database)
    : option Server.t :=
  fetchone (filter (λ s, Server.name s = server_name) (servers db)).

Definition get_channel_by_name (server_id : Z) (channel_name : string)
    (db : Database) : option Channel.t :=
  fetchone (filter (λ c, Channel.server_id c = server_id ∧ Channel.name c = channel_name)
              (channels db)).

(** A row of [get_messages_in_channel]:
    [(message_id, content, timestamp, username)], the last one NULL when
    no user has the message's [user_uuid]. *)
Definition message_row : Type := Z * string * Z * option string.

(** [SELECT m.message_id, m.content, m.timestamp, u.username]. *)
Definition select_message_row (p : Message.t * option User.t) : message_row :=
  (Message.message_id p.1, Message.content p.1, Message.timestamp p.1,
   User.username <$> p.2).

Definition get_messages_in_channel (channel_id : Z) (db : Database)
    : list message_row :=
  select_message_row <$>
  sql_order_by (λ p, Message.timestamp p.1)
    (filter (λ p, Message.channel_id p.1 = channel_id)
       (sql_left_join (λ p, Message.user_uuid p.1 = User.user_uuid p.2)
          (messages db) (users db))).

Definition user_exists (user_uuid : string) (db : Database) : bool :=
  is_not_None (select_1 (filter (λ u, User.user_uuid u = user_uuid) (users db))).

Definition server_exists (server_id : Z) (db : Database) : bool :=
  is_not_None (select_1 (filter (λ s, Server.server_id s = server_id) (servers db))).

Definition is_user_in_server (user_uuid : string) (server_id : Z) (db : Database)
    : bool :=
  is_not_None
    (select_1 (filter (λ m, Membership.user_uuid m = user_uuid
                            ∧ Membership.server_id m = server_id)
                 (memberships db))).

(** [users u JOIN memberships m ON u.user_uuid = m.user_uuid]. *)
Definition users_join_memberships (db : Database) : list (User.t * Membership.t) :=
  sql_join (λ p, User.user_uuid p.1 = Membership.user_uuid p.2)
    (users db) (memberships db).

(** [users_in_server] unpacks every row: [row[0] for row in ...]. *)
Definition users_in_server (server_name : string) (db : Database) : list string :=
  (λ p, User.username p.1.1) <$>
  filter (λ p, Server.name p.2 = server_name)
    (sql_join (λ p, Membership.server_id p.1.2 = Server.server_id p.2)
       (users_join_memberships db) (servers db)).

(** [users_in_server_id] returns the rows as they are: [row for row in ...]. *)
Definition users_in_server_id (server_id : Z) (db : Database)
    : list (tuple1 string) :=
  (λ p, Tuple1 (User.username p.1)) <$>
  filter (λ p, Membership.server_id p.2 = server_id) (users_join_memberships db).

(** ** The methods that write *)

(** [int(permissions.get(key, default))] on a [dict[str, bool]]. *)
Definition permission_int (permissions : gmap string bool) (key : string)
    (default : Z) : Z :=
  from_option Z.b2z default (permissions !! key).

Definition create_role (name : string) (rank : Z) (permissions : gmap string bool)
    : M Z :=
  lastrowid ← insert_role name rank
    (permission_int permissions "send_messages" 1)
    (permission_int permissions "view_message_history" 1)
    (permission_int permissions "mute_members" 0)
    (permission_int permissions "kick_members" 0)
    (permission_int permissions "ban_members" 0)
    (permission_int permissions "manage_channels" 0)
    (permission_int permissions "manage_server" 0)
    (permission_int permissions "super_admin" 0);
  commit;;
  mret lastrowid.

Definition assign_role_to_user (user_uuid : string) (role_id server_id : Z)
    : M unit :=
  insert_or_ignore_user_role user_uuid role_id server_id;;
  commit.

Definition update_username (uuid new_username : string) : M unit :=
  update_users_username new_username uuid.

(** The bare [return] of the first branch gives [None]. *)
Definition create_channel_in_server (server_id : Z) (channel_name : string)
    : M (option Z) :=
  existing ← gets (get_channel_by_name server_id channel_name);
  if existing is Some _ then mret None
  else
    found ← gets (λ db,
      select_1 (filter (λ s, Server.server_id s = server_id) (servers db)));
    if found is None then raise ValueError
    else
      lastrowid ← insert_channel channel_name server_id;
      commit;;
      mret (Some lastrowid).

Definition create_message_in_channel (now : Z) (channel_id : Z)
    (user_uuid user_name content : string) : M Z :=
  found ← gets (λ db,
    select_1 (filter (λ c, Channel.channel_id c = channel_id) (channels db)));
  if found is None then raise ValueError
  else
    found ← gets (λ db,
      select_1 (filter (λ u, User.user_uuid u = user_uuid) (users db)));
    if found is None then raise ValueError
    else
      lastrowid ← insert_message now content user_uuid user_name channel_id;
      commit;;
      mret lastrowid.

Definition create_server (server_name : string) : M Z :=
  existing ← gets (get_server_by_name server_name);
  if existing is Some _ then raise ValueError
  else
    server_id ← insert_server server_name;
    commit;;
    mret server_id.

(** [executemany] runs the INSERT once, for the one pair of the list; the
    cursor it returns carries no data and is modelled by [tt]. *)
Definition add_user_to_server (user_uuid : string) (server_id : Z) : M unit :=
  present ← gets (is_user_in_server user_uuid server_id);
  if (present : bool) then raise ValueError
  else
    result ← insert_membership user_uuid server_id;
    assign_role_to_user user_uuid 1 server_id;;
    mret result.

(** The value returned is [self.cur.lastrowid] after the INSERT into
    [users]: the hidden rowid of the new row. *)
Definition create_user (user_name uuid : string) : M Z :=
  present ← gets (user_exists uuid);
  if (present : bool) then raise ValueError
  else
    user_uuid ← insert_user uuid user_name;
    commit;;
    add_user_to_server uuid 1;;
    mret user_uuid.

Definition SYSTEM_UUID : string := "00000000-0000-0000-0000-000000000000".

(** [Database.__init__] after the [CREATE TABLE IF NOT EXISTS] statements,
    which leave existing tables alone; [title] is
    [self.server.server_info["title"]]. *)
Definition init (title : string) : M unit :=
  row ← gets (get_server_by_name title);
  server_id ← (if row is Some s then mret (Server.server_id s)
               else create_server title);
  channel ← gets (get_channel_by_name server_id "general");
  (if channel is Some _ then mret tt
   else create_channel_in_server server_id "general";; mret tt);;
  role ← gets (get_role_by_name "DefaultPerms");
  (if role is Some _ then mret tt
   else create_role "DefaultPerms" 0 ∅;; mret tt);;
  present ← gets (user_exists SYSTEM_UUID);
  (if (present : bool) then mret tt
   else create_user "SYSTEM" SYSTEM_UUID;; mret tt);;
  commit.

Definition run {A} (m : M A) (db : Database) : outcome A := (m db).1.
Definition exec {A} (m : M A) (db : Database) : Database := (m db).2.

(** ** The calls a client can make, and the stores they lead to *)

Inductive call :=
  | Init (title : string)
  | CreateRole (name : string) (rank : Z) (permissions : gmap string bool)
  | AssignRoleToUser (user_uuid : string) (role_id server_id : Z)
  | UpdateUsername (uuid new_username : string)
  | CreateChannelInServer (server_id : Z) (channel_name : string)
  | CreateMessageInChannel (now : Z) (channel_id : Z)
      (user_uuid user_name content : string)
  | CreateServer (server_name : string)
  | CreateUser (user_name uuid : string)
  | AddUserToServer (user_uuid : string) (server_id : Z).

(** The store a call leaves behind, whether it returned or raised. *)
Definition perform (c : call) : Database → Database :=
  match c with
  | Init title => exec (init title)
  | CreateRole name rank permissions => exec (create_role name rank permissions)
  | AssignRoleToUser u r s => exec (assign_role_to_user u r s)
  | UpdateUsername u n => exec (update_username u n)
  | CreateChannelInServer s n => exec (create_channel_in_server s n)
  | CreateMessageInChannel now c u n t => exec (create_message_in_channel now c u n t)
  | CreateServer n => exec (create_server n)
  | CreateUser n u => exec (create_user n u)
  | AddUserToServer u s => exec (add_user_to_server u s)
  end.

(** A store is reachable when it comes from the empty store by a first
    construction of the [Database] object and any calls after it. *)
Inductive reachable : Database → Prop :=
  | reachable_init title : reachable (exec (init title) empty_db)
  | reachable_call c db : reachable db → reachable (perform c db).

(** The role the first construction creates, and [add_user_to_server]
    hands out by its id. *)
Definition default_role : Role.t :=
  Role.mk 1 "DefaultPerms" 0 1 1 0 0 0 0 0 0.

Definition is_bit (z : Z) : Prop := z = 0 ∨ z = 1.

Definition capabilities_are_bits (r : Role.t) : Prop :=
  is_bit (Role.send_messages r) ∧ is_bit (Role.view_message_history r) ∧
  is_bit (Role.mute_members r) ∧ is_bit (Role.kick_members r) ∧
  is_bit (Role.ban_members r) ∧ is_bit (Role.manage_channels r) ∧
  is_bit (Role.manage_server r) ∧ is_bit (Role.super_admin r).

(** What holds of every reachable store: the primary keys, the 0/1
    capability columns that [create_role] writes, channels that belong to
    a server, and the default role under id 1. *)
Record invariant (db : Database) : Prop := mk_invariant {
  inv_users_pk : NoDup (User.user_uuid <$> users db);
  inv_memberships_pk : NoDup (memberships db);
  inv_roles_pk : NoDup (Role.role_id <$> roles db);
  inv_user_roles_pk : NoDup (user_roles db);
  inv_capabilities : ∀ r, r ∈ roles db → capabilities_are_bits r;
  inv_channel_server :
    ∀ c, c ∈ channels db →
      ∃ s, s ∈ servers db ∧ Server.server_id s = Channel.server_id c;
  inv_default_role : default_role ∈ roles db
}.

(** [r] grants the capability named [permission]. *)
Definition grants (permission : string) (r : Role.t) : Prop :=
  (λ col : Role.t → Z, col r) <$> role_column permission = Some 1.

#[global] Instance grants_dec permission r : Decision (grants permission r).
Proof. unfold grants. apply _. Defined.

(** The [timestamp] column of a row of [get_messages_in_channel]. *)
Definition row_timestamp (r : message_row) : Z := r.1.2.

(** [m] keeps [P]: whatever store [m] leaves, returning or raising. *)
Definition preserves {A} (P : Database → Prop) (m : M A) : Prop :=
  ∀ db, P db → P (exec m db).

(** ** The remaining read-only methods *)

(** [result[0] if result else None] on the one-column row. *)
Definition get_channel_name_by_id (channel_id : Z) (db : Database) : option string :=
  match fetchone ((λ c, Tuple1 (Channel.name c)) <$>
                  filter (λ c, Channel.channel_id c = channel_id) (channels db)) with
  | Some result => Some (item0 result)
  | None => None
  end.

Definition get_server_from_channel (channel_id : Z) (db : Database)
    : option Server.t :=
  fetchone (fst <$>
    filter (λ p, Channel.channel_id p.2 = channel_id)
      (sql_join (λ p, Server.server_id p.1 = Channel.server_id p.2)
         (servers db) (channels db))).

Definition get_user_by_name (username : string) (db : Database) : option User.t :=
  fetchone (filter (λ u, User.username u = username) (users db)).

Definition get_channels_in_server (server_id : Z) (db : Database)
    : list (Z * string) :=
  (λ c, (Channel.channel_id c, Channel.name c)) <$>
  filter (λ c, Channel.server_id c = server_id) (channels db).

Definition get_channels_by_server_name (server_name : string) (db : Database)
    : list (Z * string) :=
  (λ p, (Channel.channel_id p.1, Channel.name p.1)) <$>
  filter (λ p, Server.name p.2 = server_name)
    (sql_join (λ p, Channel.server_id p.1 = Server.server_id p.2)
       (channels db) (servers db)).

Definition get_channel (server_id channel_id : Z) (db : Database)
    : option Channel.t :=
  fetchone (filter (λ c, Channel.server_id c = server_id
                         ∧ Channel.channel_id c = channel_id) (channels db)).

Definition user_exists_by_name (username : string) (db : Database) : bool :=
  is_not_None (select_1 (filter (λ u, User.username u = username) (users db))).

Definition server_exists_by_name (name : string) (db : Database) : bool :=
  is_not_None (select_1 (filter (λ s, Server.name s = name) (servers db))).

Definition servers_with_user (user_name : string) (db : Database) : list string :=
  (λ p, Server.name p.1.1) <$>
  filter (λ p, User.username p.2 = user_name)
    (sql_join (λ p, Membership.user_uuid p.1.2 = User.user_uuid p.2)
       (sql_join (λ p, Server.server_id p.1 = Membership.server_id p.2)
          (servers db) (memberships db))
       (users db)).

(** [ORDER BY] with an order given as a test "comes no later than";
    rows that tie keep the order of the scan. *)
Fixpoint order_insert_by {A} (le : A → A → bool) (x : A) (l : list A) : list A :=
  match l with
  | [] => [x]
  | y :: l' => if le x y then x :: y :: l' else y :: order_insert_by le x l'
  end.

Definition sql_order_by_le {A} (le : A → A → bool) (l : list A) : list A :=
  foldr (order_insert_by le) [] l.

(** [ORDER BY r.rank DESC, r.name ASC]; text compares byte by byte. *)
Definition rank_desc_name_asc (r1 r2 : Role.t) : bool :=
  bool_decide (Role.rank r2 < Role.rank r1)
  || (bool_decide (Role.rank r1 = Role.rank r2)
      && String.leb (Role.name r1) (Role.name r2)).

(** [role_map[role_name].append(username)] on a [defaultdict(list)]; the
    dict keeps its keys in the order of their first insertion. *)
Fixpoint dict_append (role_map : list (string * list string))
    (role_name username : string) : list (string * list string) :=
  match role_map with
  | [] => [(role_name, [username])]
  | (k, vs) :: role_map' =>
      if decide (k = role_name) then (k, vs ++ [username]) :: role_map'
      else (k, vs) :: dict_append role_map' role_name username
  end.

(** The rows of [roles r JOIN user_roles ur ON r.role_id = ur.role_id
    JOIN users u ON ur.user_uuid = u.user_uuid WHERE ur.server_id = ?]. *)
Definition roles_with_users_rows (server_id : Z) (db : Database)
    : list (Role.t * UserRole.t * User.t) :=
  filter (λ p, UserRole.server_id p.1.2 = server_id)
    (sql_join (λ p, UserRole.user_uuid p.1.2 = User.user_uuid p.2)
       (sql_join (λ p, Role.role_id p.1 = UserRole.role_id p.2)
          (roles db) (user_roles db))
       (users db)).

Definition get_roles_with_users_in_server (server_id : Z) (db : Database)
    : list (string * list string) :=
  let rows :=
    (λ p, (Role.name p.1.1, User.username p.2)) <$>
    sql_order_by_le (λ p q, rank_desc_name_asc p.1.1 q.1.1)
      (roles_with_users_rows server_id db) in
  foldl (λ role_map row, dict_append role_map row.1 row.2) [] rows.

(** ** What a call does to the store *)

(** The single changes the methods make, each with what the method or
    the engine has checked before making it. *)
Inductive update : Database → Database → Prop :=
  | update_add_server x db :
      Server.server_id x ∉ Server.server_id <$> servers db →
      Server.name x ∉ Server.name <$> servers db →
      update db (add_server x db)
  | update_add_user x db :
      User.user_uuid x ∉ User.user_uuid <$> users db →
      User.rowid x ∉ User.rowid <$> users db →
      update db (add_user x db)
  | update_rename new_username uuid db :
      update db (exec (update_users_username new_username uuid) db)
  | update_add_membership x db :
      x ∉ memberships db → update db (add_membership x db)
  | update_add_channel x db :
      Channel.channel_id x ∉ Channel.channel_id <$> channels db →
      Channel.server_id x ∈ Server.server_id <$> servers db →
      (Channel.server_id x, Channel.name x)
        ∉ (λ c, (Channel.server_id c, Channel.name c)) <$> channels db →
      update db (add_channel x db)
  | update_add_message x db :
      Message.message_id x ∉ Message.message_id <$> messages db →
      Message.channel_id x ∈ Channel.channel_id <$> channels db →
      Message.user_uuid x ∈ User.user_uuid <$> users db →
      update db (add_message x db)
  | update_add_role x db :
      Role.role_id x ∉ Role.role_id <$> roles db →
      0 ≤ Role.rank x ∧ Role.rank x ≤ 255 →
      capabilities_are_bits x →
      update db (add_role x db)
  | update_add_user_role x db :
      x ∉ user_roles db → update db (add_user_role x db).

(** [m] changes the store by such changes only. *)
Definition updates {A} (m : M A) : Prop := ∀ db, rtc update db (exec m db).

(** [db'] is [db] with rows appended: no row of [db] is gone or altered,
    but for the [username] of a user. *)
Record grows (db db' : Database) : Prop := mk_grows {
  grows_servers : servers db `prefix_of` servers db';
  grows_user_uuids :
    User.user_uuid <$> users db `prefix_of` User.user_uuid <$> users db';
  grows_user_rowids : User.rowid <$> users db `prefix_of` User.rowid <$> users db';
  grows_memberships : memberships db `prefix_of` memberships db';
  grows_channels : channels db `prefix_of` channels db';
  grows_messages : messages db `prefix_of` messages db';
  grows_roles : roles db `prefix_of` roles db';
  grows_user_roles : user_roles db `prefix_of` user_roles db'
}.

(** What the methods keep true without the schema asking for it. *)
Record integrity (db : Database) : Prop := mk_integrity {
  int_server_ids : NoDup (Server.server_id <$> servers db);
  int_server_names : NoDup (Server.name <$> servers db);
  int_user_rowids : NoDup (User.rowid <$> users db);
  int_channel_ids : NoDup (Channel.channel_id <$> channels db);
  int_channel_names :
    NoDup ((λ c, (Channel.server_id c, Channel.name c)) <$> channels db);
  int_message_ids : NoDup (Message.message_id <$> messages db);
  int_message_channel :
    ∀ m, m ∈ messages db →
      Message.channel_id m ∈ Channel.channel_id <$> channels db;
  int_message_author :
    ∀ m, m ∈ messages db → Message.user_uuid m ∈ User.user_uuid <$> users db;
  int_role_ranks : ∀ r, r ∈ roles db → 0 ≤ Role.rank r ∧ Role.rank r ≤ 255;
  int_system_user : SYSTEM_UUID ∈ User.user_uuid <$> users db;
  int_first_server : 1 ∈ Server.server_id <$> servers db
}.

(** The store after the calls [cs], made one after the other. *)
Definition perform_all (cs : list call) (db : Database) : Database :=
  foldl (λ d c, perform c d) db cs.

(** The four steps of [init], one by one. *)
Definition init_server (title : string) : M Z :=
  row ← gets (get_server_by_name title);
  if row is Some s then mret (Server.server_id s) else create_server title.

Definition init_channel (server_id : Z) : M unit :=
  channel ← gets (get_channel_by_name server_id "general");
  if channel is Some _ then mret tt
  else create_channel_in_server server_id "general";; mret tt.

Definition init_role : M unit :=
  role ← gets (get_role_by_name "DefaultPerms");
  if role is Some _ then mret tt
  else create_role "DefaultPerms" 0 ∅;; mret tt.

Definition init_user : M unit :=
  present ← gets (user_exists SYSTEM_UUID);
  if (present : bool) then mret tt
  else create_user "SYSTEM" SYSTEM_UUID;; mret tt.

(** The store is set up for [title]: nothing is left for [init] to do. *)
Definition booted (title : string) (db : Database) : Prop :=
  ∃ s, get_server_by_name title db = Some s ∧
       is_Some (get_channel_by_name (Server.server_id s) "general" db) ∧
       is_Some (get_role_by_name "DefaultPerms" db) ∧
       user_exists SYSTEM_UUID db = true.

(** The row of [get_messages_in_channel] for the message [m]. *)
Definition history_row (db : Database) (m : Message.t) : message_row :=
  (Message.message_id m, Message.content m, Message.timestamp m,
   User.username <$> get_user (Message.user_uuid m) db).

(** * Properties *)

(** ** The monad *)

Ltac unfold_M :=
  unfold commit, run, exec in *;
  unfold mbind, M_bind, mret, M_ret, gets, raise, modify in *.

Lemma exec_bind {A B} (m : M A) (k : A → M B) db :
  exec (m ≫= k) db =
    match run m db with
    | Return a => exec (k a) (exec m db)
    | Raise _ => exec m db
    end.
Proof. unfold_M. by destruct (m db) as [[a|e] db']. Qed.

Lemma preserves_bind {A B} P (m : M A) (k : A → M B) :
  preserves P m → (∀ a, preserves P (k a)) → preserves P (m ≫= k).
Proof.
  intros Hm Hk db HP. rewrite exec_bind.
  destruct (run m db); [apply Hk|]; by apply Hm.
Qed.

Lemma preserves_ret {A} P (a : A) : preserves P (mret a).
Proof. by intros db HP. Qed.

Lemma preserves_raise {A} P e : preserves P (@raise A e).
Proof. by intros db HP. Qed.

Lemma preserves_gets {A} P (f : Database → A) : preserves P (gets f).
Proof. by intros db HP. Qed.

Lemma preserves_commit P : preserves P commit.
Proof. by intros db HP. Qed.

(** ** Lists and SQL *)

Lemma is_not_None_select_1 {A} (rows : list A) :
  is_not_None (select_1 rows) = true ↔ ∃ a, a ∈ rows.
Proof.
  destruct rows as [|a rows]; simpl; split; try done.
  - intros [a Ha]. by apply elem_of_nil in Ha.
  - intros _. exists a. by left.
Qed.

Lemma max_rowid_ge (ids : list Z) (i : Z) : i ∈ ids → i ≤ max_rowid ids.
Proof.
  unfold max_rowid. induction 1 as [i ids|i j ids _ IH]; simpl; lia.
Qed.

Lemma next_autoincrement_fresh (ids : list Z) (seq : Z) :
  next_autoincrement ids seq ∉ ids.
Proof.
  intros Hin%max_rowid_ge. unfold next_autoincrement in Hin. lia.
Qed.

Lemma NoDup_snoc {A} (l : list A) (x : A) : NoDup l → x ∉ l → NoDup (l ++ [x]).
Proof.
  intros Hl Hx. apply NoDup_app. split_and!; [done| |apply NoDup_singleton].
  intros y Hy ->%list_elem_of_singleton. done.
Qed.

Lemma elem_of_sql_join {A B} (on : A * B → Prop) `{!∀ p, Decision (on p)}
    (l : list A) (k : list B) (p : A * B) :
  p ∈ sql_join on l k ↔ p.1 ∈ l ∧ p.2 ∈ k ∧ on p.
Proof.
  unfold sql_join. rewrite list_elem_of_bind. split.
  - intros (a & (b & -> & [Hon Hb]%list_elem_of_filter)%list_elem_of_fmap & Ha).
    done.
  - destruct p as [a b]. intros (Ha & Hb & Hon). exists a. split; [|done].
    apply list_elem_of_fmap. exists b. split; [done|].
    by apply list_elem_of_filter.
Qed.

(** ** The invariant of reachable stores *)

Lemma invariant_add_server x db : invariant db → invariant (add_server x db).
Proof.
  intros [Hu Hm Hr Hur Hc Hcs Hd]. constructor; simpl; try done.
  intros c (s & Hs & Heq)%Hcs. exists s. split; [|done].
  apply elem_of_app. by left.
Qed.

Lemma invariant_add_user x db :
  invariant db → User.user_uuid x ∉ User.user_uuid <$> users db →
  invariant (add_user x db).
Proof.
  intros [Hu Hm Hr Hur Hc Hcs Hd] Hx. constructor; simpl; try done.
  rewrite fmap_app. by apply NoDup_snoc.
Qed.

Lemma invariant_set_users us db :
  invariant db → User.user_uuid <$> us = User.user_uuid <$> users db →
  invariant (set_users us db).
Proof.
  intros [Hu Hm Hr Hur Hc Hcs Hd] Hus. constructor; simpl; try done.
  by rewrite Hus.
Qed.

Lemma invariant_add_membership x db :
  invariant db → x ∉ memberships db → invariant (add_membership x db).
Proof.
  intros [Hu Hm Hr Hur Hc Hcs Hd] Hx. constructor; simpl; try done.
  by apply NoDup_snoc.
Qed.

Lemma invariant_add_channel x db :
  invariant db →
  (∃ s, s ∈ servers db ∧ Server.server_id s = Channel.server_id x) →
  invariant (add_channel x db).
Proof.
  intros [Hu Hm Hr Hur Hc Hcs Hd] Hx. constructor; simpl; try done.
  intros c [Hc'| ->%list_elem_of_singleton]%elem_of_app; auto.
Qed.

Lemma invariant_add_message x db : invariant db → invariant (add_message x db).
Proof. intros [Hu Hm Hr Hur Hc Hcs Hd]. by constructor. Qed.

Lemma invariant_add_role x db :
  invariant db → Role.role_id x ∉ Role.role_id <$> roles db →
  capabilities_are_bits x → invariant (add_role x db).
Proof.
  intros [Hu Hm Hr Hur Hc Hcs Hd] Hx Hbits. constructor; simpl; try done.
  - rewrite fmap_app. by apply NoDup_snoc.
  - intros r [Hr'| ->%list_elem_of_singleton]%elem_of_app; auto.
  - apply elem_of_app. by left.
Qed.

Lemma invariant_add_user_role x db :
  invariant db → x ∉ user_roles db → invariant (add_user_role x db).
Proof.
  intros [Hu Hm Hr Hur Hc Hcs Hd] Hx. constructor; simpl; try done.
  by apply NoDup_snoc.
Qed.

Lemma permission_int_bit permissions key default :
  is_bit default → is_bit (permission_int permissions key default).
Proof.
  unfold permission_int, is_bit.
  destruct (permissions !! key) as [[]|]; simpl; auto.
Qed.

Lemma create_role_preserves name rank permissions :
  preserves invariant (create_role name rank permissions).
Proof.
  intros db Hinv. unfold create_role, insert_role. unfold_M.
  case_decide; simpl; [|done].
  apply invariant_add_role; simpl; [done|apply next_autoincrement_fresh|].
  repeat split; apply permission_int_bit; unfold is_bit; auto.
Qed.

Lemma assign_role_to_user_preserves u r s :
  preserves invariant (assign_role_to_user u r s).
Proof.
  intros db Hinv. unfold assign_role_to_user, insert_or_ignore_user_role.
  unfold_M. case_decide; simpl; [done|]. by apply invariant_add_user_role.
Qed.

Lemma update_username_preserves u n :
  preserves invariant (update_username u n).
Proof.
  intros db Hinv. unfold update_username, update_users_username. unfold_M.
  simpl. apply invariant_set_users; [done|].
  rewrite <-list_fmap_compose. apply list_fmap_ext.
  intros i x _. simpl. by case_decide.
Qed.

Lemma create_channel_in_server_preserves s n :
  preserves invariant (create_channel_in_server s n).
Proof.
  intros db Hinv. unfold create_channel_in_server, insert_channel. unfold_M.
  destruct (get_channel_by_name s n db); simpl; [done|].
  destruct (select_1 _) eqn:Hsel; simpl; [|done].
  apply invariant_add_channel; [done|]. simpl.
  assert (is_not_None (select_1 (filter (λ s', Server.server_id s' = s) (servers db)))
          = true) as Hsome by (by rewrite Hsel).
  apply is_not_None_select_1 in Hsome as [s' [Hid Hin]%list_elem_of_filter]. eauto.
Qed.

Lemma create_message_in_channel_preserves now c u n t :
  preserves invariant (create_message_in_channel now c u n t).
Proof.
  intros db Hinv. unfold create_message_in_channel, insert_message. unfold_M.
  repeat (destruct (select_1 _); simpl; [|done]).
  by apply invariant_add_message.
Qed.

Lemma create_server_preserves n : preserves invariant (create_server n).
Proof.
  intros db Hinv. unfold create_server, insert_server. unfold_M.
  destruct (get_server_by_name n db); simpl; [done|].
  by apply invariant_add_server.
Qed.

Lemma insert_membership_preserves u s :
  preserves invariant (insert_membership u s).
Proof.
  intros db Hinv. unfold insert_membership, exec.
  case_decide; simpl; [done|]. by apply invariant_add_membership.
Qed.

Lemma insert_user_preserves u n : preserves invariant (insert_user u n).
Proof.
  intros db Hinv. unfold insert_user, exec.
  case_decide; simpl; [done|]. by apply invariant_add_user.
Qed.

Lemma add_user_to_server_preserves u s :
  preserves invariant (add_user_to_server u s).
Proof.
  unfold add_user_to_server.
  apply preserves_bind; [apply preserves_gets|intros []].
  { apply preserves_raise. }
  apply preserves_bind; [apply insert_membership_preserves|intros result].
  apply preserves_bind; [apply assign_role_to_user_preserves|intros _].
  apply preserves_ret.
Qed.

Lemma create_user_preserves n u : preserves invariant (create_user n u).
Proof.
  unfold create_user.
  apply preserves_bind; [apply preserves_gets|intros []].
  { apply preserves_raise. }
  apply preserves_bind; [apply insert_user_preserves|intros ?].
  apply preserves_bind; [apply preserves_commit|intros _].
  apply preserves_bind; [apply add_user_to_server_preserves|intros _].
  apply preserves_ret.
Qed.

Lemma init_preserves title : preserves invariant (init title).
Proof.
  unfold init.
  apply preserves_bind; [apply preserves_gets|intros row].
  apply preserves_bind.
  { destruct row; [apply preserves_ret|apply create_server_preserves]. }
  intros server_id.
  apply preserves_bind; [apply preserves_gets|intros channel].
  apply preserves_bind.
  { destruct channel; [apply preserves_ret|].
    apply preserves_bind; [apply create_channel_in_server_preserves|intros _].
    apply preserves_ret. }
  intros _.
  apply preserves_bind; [apply preserves_gets|intros role].
  apply preserves_bind.
  { destruct role; [apply preserves_ret|].
    apply preserves_bind; [apply create_role_preserves|intros _].
    apply preserves_ret. }
  intros _.
  apply preserves_bind; [apply preserves_gets|intros present].
  apply preserves_bind.
  { destruct present; [apply preserves_ret|].
    apply preserves_bind; [apply create_user_preserves|intros _].
    apply preserves_ret. }
  intros _. apply preserves_commit.
Qed.

Lemma perform_preserves c db : invariant db → invariant (perform c db).
Proof.
  destruct c; simpl.
  - apply init_preserves.
  - apply create_role_preserves.
  - apply assign_role_to_user_preserves.
  - apply update_username_preserves.
  - apply create_channel_in_server_preserves.
  - apply create_message_in_channel_preserves.
  - apply create_server_preserves.
  - apply create_user_preserves.
  - apply add_user_to_server_preserves.
Qed.

Lemma init_empty_db title :
  exec (init title) empty_db =
    mkDatabase [Server.mk 1 title] [User.mk 1 SYSTEM_UUID "SYSTEM"]
      [Membership.mk SYSTEM_UUID 1] [Channel.mk 1 "general" 1] []
      [default_role] [UserRole.mk SYSTEM_UUID 1 1] 1 0 1.
Proof. reflexivity. Qed.

Lemma invariant_init title : invariant (exec (init title) empty_db).
Proof.
  rewrite init_empty_db. constructor; simpl.
  - apply NoDup_singleton.
  - apply NoDup_singleton.
  - apply NoDup_singleton.
  - apply NoDup_singleton.
  - intros r ->%list_elem_of_singleton. repeat split; unfold is_bit; auto.
  - intros c ->%list_elem_of_singleton. eexists. split; [by left|done].
  - by left.
Qed.

Lemma reachable_invariant db : reachable db → invariant db.
Proof.
  induction 1 as [title|c db _ IH].
  - apply invariant_init.
  - by apply perform_preserves.
Qed.

(** ** Permission resolution: [can_user] *)

Lemma elem_of_held_roles p u s db :
  p ∈ held_roles u s db ↔
    p.1 ∈ roles db ∧ p.2 ∈ user_roles db ∧
    Role.role_id p.1 = UserRole.role_id p.2 ∧
    UserRole.user_uuid p.2 = u ∧ UserRole.server_id p.2 = s.
Proof.
  unfold held_roles. rewrite list_elem_of_filter, elem_of_sql_join. tauto.
Qed.

Lemma elem_of_get_roles_for_user_in_server r u s db :
  r ∈ get_roles_for_user_in_server u s db ↔
    r ∈ roles db ∧ UserRole.mk u (Role.role_id r) s ∈ user_roles db.
Proof.
  unfold get_roles_for_user_in_server. rewrite list_elem_of_fmap. split.
  - intros ([r' ur] & -> & (Hr & Hur & Hid & Hu & Hs)%elem_of_held_roles).
    simpl in *. split; [done|]. destruct ur; simpl in *; by subst.
  - intros [Hr Hur]. exists (r, UserRole.mk u (Role.role_id r) s).
    split; [done|]. by apply elem_of_held_roles.
Qed.

Lemma foldr_max_bits v vs :
  (∀ x, x ∈ v :: vs → is_bit x) →
  is_bit (foldr Z.max v vs) ∧ (foldr Z.max v vs = 1 ↔ 1 ∈ v :: vs).
Proof.
  induction vs as [|w vs IH]; intros Hbits; simpl.
  - split; [apply Hbits; by left|]. by rewrite list_elem_of_singleton.
  - destruct IH as [Hb IH].
    { intros x [->|Hx]%elem_of_cons; apply Hbits; [by left|by do 2 right]. }
    assert (is_bit w) as Hw by (apply Hbits; right; by left).
    clear Hbits. rewrite !elem_of_cons in *. unfold is_bit in *.
    destruct Hb as [Hb|Hb], Hw as [-> | ->]; rewrite Hb in *; simpl;
      (split; [lia|]); split; try lia; intuition (auto; try lia).
Qed.

Lemma py_eq_1_sql_max vs :
  (∀ x, x ∈ vs → is_bit x) → py_eq_1 (sql_max vs) = true ↔ 1 ∈ vs.
Proof.
  destruct vs as [|v vs]; simpl; intros Hbits.
  - by rewrite elem_of_nil.
  - rewrite bool_decide_eq_true. by apply foldr_max_bits.
Qed.

Lemma role_column_valid permission :
  permission ∈ valid_permissions →
  ∃ col, role_column permission = Some col ∧
         ∀ r, capabilities_are_bits r → is_bit (col r).
Proof.
  unfold valid_permissions. rewrite !elem_of_union, !elem_of_singleton.
  intros Hp. repeat destruct Hp as [Hp|Hp]; subst permission;
    (eexists; split; [reflexivity|]);
    intros r (? & ? & ? & ? & ? & ? & ? & ?); done.
Qed.

(** On a valid name [can_user] is the test of the maximum against 1. *)
Lemma can_user_valid u s permission db :
  permission ∈ valid_permissions →
  ∃ col, role_column permission = Some col ∧
    (∀ r, capabilities_are_bits r → is_bit (col r)) ∧
    can_user u s permission db =
      Return (py_eq_1 (sql_max (col ∘ fst <$> held_roles u s db))).
Proof.
  intros Hp. destruct (role_column_valid _ Hp) as (col & Hcol & Hbits).
  exists col. split_and!; [done..|].
  unfold can_user. by rewrite decide_True, Hcol by done.
Qed.

(** C1: a user without any role assignment in the server is refused every
    one of the eight capabilities, and [can_user] returns (it raises
    nothing). *)
Theorem can_user_without_roles db u s permission :
  permission ∈ valid_permissions →
  (∀ ur, ur ∈ user_roles db →
     ¬ (UserRole.user_uuid ur = u ∧ UserRole.server_id ur = s)) →
  can_user u s permission db = Return false.
Proof.
  intros Hp Hnone.
  destruct (can_user_valid u s _ db Hp) as (col & _ & _ & ->).
  replace (held_roles u s db) with (@nil (Role.t * UserRole.t)); [done|].
  symmetry. apply elem_of_nil_inv.
  intros p (_ & Hur & _ & Hu & Hs)%elem_of_held_roles. by eapply Hnone.
Qed.

Lemma can_user_without_roles_witness :
  can_user "nobody" 1 "send_messages" (exec (init "Town Square") empty_db)
  = Return false.
Proof.
  apply can_user_without_roles.
  - vm_compute. reflexivity.
  - intros ur ->%list_elem_of_singleton [Hu _]. discriminate Hu.
Defined.

Lemma can_user_true_iff db u s permission :
  invariant db → permission ∈ valid_permissions →
  can_user u s permission db = Return true ↔
    ∃ r, r ∈ get_roles_for_user_in_server u s db ∧ grants permission r.
Proof.
  intros Hinv Hp.
  destruct (can_user_valid u s _ db Hp) as (col & Hcol & Hbits & ->).
  unfold grants. rewrite Hcol. simpl.
  assert (∀ x, x ∈ col ∘ fst <$> held_roles u s db → is_bit x) as Hall.
  { intros x (p & -> & (Hr & _)%elem_of_held_roles)%list_elem_of_fmap.
    simpl. apply Hbits. by apply (inv_capabilities db). }
  split.
  - intros [= Heq]. apply py_eq_1_sql_max in Heq; [|done].
    apply list_elem_of_fmap in Heq as (p & Hp1 & Hin). exists p.1.
    split; [|simpl in Hp1; by rewrite <-Hp1].
    unfold get_roles_for_user_in_server. apply list_elem_of_fmap. eauto.
  - intros (r & Hr & [= Hone]). f_equal. apply py_eq_1_sql_max; [done|].
    unfold get_roles_for_user_in_server in Hr.
    apply list_elem_of_fmap in Hr as (p & -> & Hin).
    apply list_elem_of_fmap. exists p. by rewrite <-Hone.
Qed.

Lemma can_user_returns_bool db u s permission :
  permission ∈ valid_permissions →
  ∃ b, can_user u s permission db = Return b.
Proof.
  intros Hp. destruct (can_user_valid u s _ db Hp) as (col & _ & _ & ->). eauto.
Qed.

Lemma assign_role_to_user_exec u r s db :
  assign_role_to_user u r s db =
    (Return tt,
     if decide (UserRole.mk u r s ∈ user_roles db) then db
     else add_user_role (UserRole.mk u r s) db).
Proof.
  unfold assign_role_to_user, insert_or_ignore_user_role. unfold_M.
  by case_decide.
Qed.

Lemma assign_role_to_user_roles u r s db :
  roles (exec (assign_role_to_user u r s) db) = roles db.
Proof. unfold exec. rewrite assign_role_to_user_exec. simpl. by case_decide. Qed.

Lemma assign_role_to_user_assigned u r s db :
  UserRole.mk u r s ∈ user_roles (exec (assign_role_to_user u r s) db).
Proof.
  unfold exec. rewrite assign_role_to_user_exec. simpl.
  case_decide; [done|]. simpl. apply elem_of_app. right. by left.
Qed.

(** C2: union-of-capabilities.  In a reachable store [can_user] says yes
    exactly when one of the roles the user holds in the server grants the
    capability; it says no when none of them does; and once a role that
    grants the capability is assigned the answer is yes, whatever it was
    before. *)
Theorem can_user_union_of_capabilities db u s permission :
  reachable db → permission ∈ valid_permissions →
  (can_user u s permission db = Return true ↔
     ∃ r, r ∈ get_roles_for_user_in_server u s db ∧ grants permission r) ∧
  ((∀ r, r ∈ get_roles_for_user_in_server u s db → ¬ grants permission r) →
     can_user u s permission db = Return false) ∧
  (∀ r, r ∈ roles db → grants permission r →
     can_user u s permission (exec (assign_role_to_user u (Role.role_id r) s) db)
     = Return true).
Proof.
  intros Hreach Hp. split_and!.
  - apply can_user_true_iff; [by apply reachable_invariant|done].
  - intros Hnone. destruct (can_user_returns_bool db u s _ Hp) as [[] Hb]; [|done].
    apply can_user_true_iff in Hb as (r & Hr & Hg);
      [by destruct (Hnone r)|by apply reachable_invariant|done].
  - intros r Hr Hg.
    apply can_user_true_iff; [|done|].
    { apply reachable_invariant.
      apply (reachable_call (AssignRoleToUser u (Role.role_id r) s)), Hreach. }
    exists r. split; [|done].
    apply elem_of_get_roles_for_user_in_server.
    rewrite assign_role_to_user_roles. split; [done|].
    apply assign_role_to_user_assigned.
Qed.

Lemma can_user_union_of_capabilities_witness :
  let db := exec (init "Town Square") empty_db in
  (can_user SYSTEM_UUID 1 "send_messages" db = Return true ↔
     ∃ r, r ∈ get_roles_for_user_in_server SYSTEM_UUID 1 db
          ∧ grants "send_messages" r) ∧
  ((∀ r, r ∈ get_roles_for_user_in_server SYSTEM_UUID 1 db
         → ¬ grants "send_messages" r) →
     can_user SYSTEM_UUID 1 "send_messages" db = Return false) ∧
  (∀ r, r ∈ roles db → grants "send_messages" r →
     can_user SYSTEM_UUID 1 "send_messages"
       (exec (assign_role_to_user SYSTEM_UUID (Role.role_id r) 1) db)
     = Return true).
Proof.
  apply can_user_union_of_capabilities.
  - apply reachable_init.
  - vm_compute. reflexivity.
Defined.

(** ** Joins on a key *)

Lemma filter_sql_join {A B} (W on : A * B → Prop)
    `{!∀ p, Decision (W p), !∀ p, Decision (on p)} (l : list A) (k : list B) :
  filter W (sql_join on l k) = sql_join (λ p, W p ∧ on p) l k.
Proof.
  unfold sql_join. induction l as [|a l IH]; [done|].
  rewrite !bind_cons, filter_app, IH. f_equal. clear IH.
  induction k as [|b k IHk]; [done|].
  rewrite (filter_cons (λ b, on (a, b))), (filter_cons (λ b, W (a, b) ∧ on (a, b))).
  destruct (decide (on (a, b))) as [Hon|Hon].
  - rewrite fmap_cons, filter_cons.
    destruct (decide (W (a, b))) as [HW|HW].
    + rewrite decide_True by done. rewrite fmap_cons. by f_equal.
    + rewrite decide_False by tauto. done.
  - rewrite decide_False by tauto. done.
Qed.

Lemma filter_unique {B} `{EqDecision B} (P : B → Prop) `{!∀ b, Decision (P b)}
    (x : B) (k : list B) :
  NoDup k → (∀ b, P b ↔ b = x) →
  filter P k = if decide (x ∈ k) then [x] else [].
Proof.
  intros Hk HP. induction Hk as [|b k Hb Hk IH]; [done|].
  rewrite filter_cons, IH. destruct (decide (P b)) as [Hpb|Hpb].
  - apply HP in Hpb as ->. destruct (decide (x ∈ k)); [done|].
    by rewrite decide_True by (by left).
  - assert (b ≠ x) by (by rewrite <-HP).
    destruct (decide (x ∈ k)).
    + rewrite decide_True; [done|by right].
    + rewrite decide_False; [done|]. by intros [->|?]%elem_of_cons.
Qed.

(** A join in which every left row has one possible partner keeps the
    left rows whose partner is in the right table, once each. *)
Lemma sql_join_unique {A B} `{EqDecision B} (on : A * B → Prop)
    `{!∀ p, Decision (on p)} (partner : A → B) (l : list A) (k : list B) :
  NoDup k → (∀ a b, on (a, b) ↔ b = partner a) →
  sql_join on l k = (λ a, (a, partner a)) <$> filter (λ a, partner a ∈ k) l.
Proof.
  intros Hk Hon. unfold sql_join. induction l as [|a l IH]; [done|].
  rewrite bind_cons, IH, filter_cons.
  rewrite (filter_unique (λ b, on (a, b)) (partner a)) by auto.
  by destruct (decide (partner a ∈ k)).
Qed.

Lemma get_roles_for_user_in_server_filter u s db :
  NoDup (user_roles db) →
  get_roles_for_user_in_server u s db =
    filter (λ r, UserRole.mk u (Role.role_id r) s ∈ user_roles db) (roles db).
Proof.
  intros Hur. unfold get_roles_for_user_in_server, held_roles.
  rewrite filter_sql_join.
  rewrite (sql_join_unique _ (λ r, UserRole.mk u (Role.role_id r) s)); [|done|].
  - rewrite <-list_fmap_compose. apply list_fmap_id.
  - intros r [u' r' s']; simpl. split; [intros [[-> ->] ->]|intros [= -> -> ->]]; done.
Qed.

Lemma users_in_server_id_filter s db :
  NoDup (memberships db) →
  users_in_server_id s db =
    (λ u, Tuple1 (User.username u)) <$>
    filter (λ u, Membership.mk (User.user_uuid u) s ∈ memberships db) (users db).
Proof.
  intros Hm. unfold users_in_server_id, users_join_memberships.
  rewrite filter_sql_join.
  rewrite (sql_join_unique _ (λ u, Membership.mk (User.user_uuid u) s)); [|done|].
  - by rewrite <-list_fmap_compose.
  - intros r [u' s']; simpl. split; [intros [-> ->]|intros [= -> ->]]; done.
Qed.

Lemma is_user_in_server_true u s db :
  is_user_in_server u s db = true ↔ Membership.mk u s ∈ memberships db.
Proof.
  unfold is_user_in_server. rewrite is_not_None_select_1. split.
  - intros ([u' s'] & [[Hu Hs] Hin]%list_elem_of_filter). simpl in *. by subst.
  - intros Hin. eexists. apply list_elem_of_filter. by split; [|done].
Qed.

Lemma is_user_in_server_false u s db :
  is_user_in_server u s db = false ↔ Membership.mk u s ∉ memberships db.
Proof.
  rewrite <-is_user_in_server_true. by destruct (is_user_in_server u s db).
Qed.

Lemma user_exists_true u db :
  user_exists u db = true ↔ u ∈ User.user_uuid <$> users db.
Proof.
  unfold user_exists. rewrite is_not_None_select_1, list_elem_of_fmap. split.
  - intros (x & [Hu Hin]%list_elem_of_filter). eauto.
  - intros (x & -> & Hin). exists x. by apply list_elem_of_filter.
Qed.

Lemma server_exists_true s db :
  server_exists s db = true ↔ s ∈ Server.server_id <$> servers db.
Proof.
  unfold server_exists. rewrite is_not_None_select_1, list_elem_of_fmap. split.
  - intros (x & [Hu Hin]%list_elem_of_filter). eauto.
  - intros (x & -> & Hin). exists x. by apply list_elem_of_filter.
Qed.

(** ** Membership: [add_user_to_server] *)

Lemma add_user_to_server_new u s db :
  is_user_in_server u s db = false →
  add_user_to_server u s db =
    (Return tt,
     exec (assign_role_to_user u 1 s) (add_membership (Membership.mk u s) db)).
Proof.
  intros Hnew. unfold add_user_to_server, insert_membership, exec.
  unfold mbind, M_bind, gets. rewrite Hnew.
  apply is_user_in_server_false in Hnew. rewrite decide_False by done.
  by rewrite assign_role_to_user_exec.
Qed.

Lemma add_user_to_server_member u s db :
  is_user_in_server u s db = true →
  add_user_to_server u s db = (Raise ValueError, db).
Proof.
  intros Hin. unfold add_user_to_server. unfold mbind, M_bind, gets.
  by rewrite Hin.
Qed.

(** C3: joining a server is joining it with the default role.  For a user
    who is not yet a member, [add_user_to_server] returns, the membership
    row is there afterwards, the user holds role 1 in the server, and role
    1 is the "DefaultPerms" role, so that [get_roles_for_user_in_server]
    lists it and [can_user] grants "send_messages". *)
Theorem add_user_to_server_default_role db u s :
  reachable db → is_user_in_server u s db = false →
  ∃ db',
    add_user_to_server u s db = (Return tt, db') ∧
    memberships db' = memberships db ++ [Membership.mk u s] ∧
    is_user_in_server u s db' = true ∧
    UserRole.mk u 1 s ∈ user_roles db' ∧
    default_role ∈ get_roles_for_user_in_server u s db' ∧
    can_user u s "send_messages" db' = Return true.
Proof.
  intros Hreach Hnew. eexists. split; [by apply add_user_to_server_new|].
  set (db' := exec _ _).
  assert (reachable db') as Hreach'.
  { replace db' with (perform (AddUserToServer u s) db);
      [by apply reachable_call|].
    simpl. unfold exec at 1. by rewrite add_user_to_server_new. }
  assert (memberships db' = memberships db ++ [Membership.mk u s]) as Hm.
  { unfold db', exec. rewrite assign_role_to_user_exec. simpl. by case_decide. }
  assert (UserRole.mk u 1 s ∈ user_roles db') as Hur.
  { apply assign_role_to_user_assigned. }
  assert (default_role ∈ get_roles_for_user_in_server u s db') as Hrole.
  { apply elem_of_get_roles_for_user_in_server. split; [|done].
    by apply inv_default_role, reachable_invariant. }
  split_and!; try done.
  - apply is_user_in_server_true. rewrite Hm. apply elem_of_app. right. by left.
  - apply can_user_true_iff; [by apply reachable_invariant|by vm_compute|].
    by exists default_role.
Qed.

Lemma add_user_to_server_default_role_witness :
  ∃ db',
    add_user_to_server "u1" 7 (exec (init "Town Square") empty_db)
      = (Return tt, db') ∧
    memberships db' =
      memberships (exec (init "Town Square") empty_db) ++ [Membership.mk "u1" 7] ∧
    is_user_in_server "u1" 7 db' = true ∧
    UserRole.mk "u1" 1 7 ∈ user_roles db' ∧
    default_role ∈ get_roles_for_user_in_server "u1" 7 db' ∧
    can_user "u1" 7 "send_messages" db' = Return true.
Proof.
  apply add_user_to_server_default_role.
  - apply reachable_init.
  - reflexivity.
Defined.

(** C10: [add_user_to_server] never looks at [servers].  For a server id
    that no server has and a user who is not a member under that id, the
    call returns, and the membership row and the assignment of role 1 it
    leaves behind name a server that still does not exist. *)
Theorem add_user_to_server_missing_server db u s :
  server_exists s db = false → is_user_in_server u s db = false →
  ∃ db',
    add_user_to_server u s db = (Return tt, db') ∧
    Membership.mk u s ∈ memberships db' ∧
    UserRole.mk u 1 s ∈ user_roles db' ∧
    servers db' = servers db ∧
    server_exists s db' = false.
Proof.
  intros Hserver Hnew. eexists. split; [by apply add_user_to_server_new|].
  set (db' := exec _ _).
  assert (servers db' = servers db) as Hs.
  { unfold db', exec. rewrite assign_role_to_user_exec. simpl. by case_decide. }
  split_and!; [|apply assign_role_to_user_assigned|done|].
  - unfold db', exec. rewrite assign_role_to_user_exec. simpl.
    case_decide; simpl; apply elem_of_app; right; by left.
  - unfold server_exists in *. by rewrite Hs.
Qed.

Lemma add_user_to_server_missing_server_witness :
  ∃ db',
    add_user_to_server "u1" 7 (exec (init "Town Square") empty_db)
      = (Return tt, db') ∧
    Membership.mk "u1" 7 ∈ memberships db' ∧
    UserRole.mk "u1" 1 7 ∈ user_roles db' ∧
    servers db' = servers (exec (init "Town Square") empty_db) ∧
    server_exists 7 db' = false.
Proof.
  apply add_user_to_server_missing_server; reflexivity.
Defined.

(** ** Role assignment: [assign_role_to_user] *)

Lemma get_roles_for_user_in_server_NoDup u s db :
  invariant db → NoDup (get_roles_for_user_in_server u s db).
Proof.
  intros Hinv.
  rewrite get_roles_for_user_in_server_filter by apply Hinv.
  apply NoDup_filter, (NoDup_fmap_1 Role.role_id), Hinv.
Qed.

(** C8: assigning the same (user, role, server) twice is assigning it
    once.  Both calls return; the second leaves the store as the first
    left it, so [get_roles_for_user_in_server] answers the same; and in a
    reachable store that answer lists no role twice. *)
Theorem assign_role_to_user_idempotent db u r s :
  reachable db →
  let db1 := exec (assign_role_to_user u r s) db in
  assign_role_to_user u r s db = (Return tt, db1) ∧
  assign_role_to_user u r s db1 = (Return tt, db1) ∧
  (assign_role_to_user u r s ;; assign_role_to_user u r s) db
    = assign_role_to_user u r s db ∧
  get_roles_for_user_in_server u s (exec (assign_role_to_user u r s) db1)
    = get_roles_for_user_in_server u s db1 ∧
  NoDup (get_roles_for_user_in_server u s db1).
Proof.
  intros Hreach db1.
  assert (assign_role_to_user u r s db = (Return tt, db1)) as H1.
  { unfold db1, exec. by rewrite assign_role_to_user_exec. }
  assert (assign_role_to_user u r s db1 = (Return tt, db1)) as H2.
  { rewrite assign_role_to_user_exec.
    by rewrite decide_True by apply assign_role_to_user_assigned. }
  split_and!; try done.
  - unfold mbind, M_bind at 1. by rewrite H1, H2.
  - unfold exec at 1. by rewrite H2.
  - apply get_roles_for_user_in_server_NoDup, reachable_invariant.
    apply (reachable_call (AssignRoleToUser u r s)), Hreach.
Qed.

Lemma assign_role_to_user_idempotent_witness :
  let db := exec (init "Town Square") empty_db in
  let db1 := exec (assign_role_to_user "u1" 1 1) db in
  assign_role_to_user "u1" 1 1 db = (Return tt, db1) ∧
  assign_role_to_user "u1" 1 1 db1 = (Return tt, db1) ∧
  (assign_role_to_user "u1" 1 1 ;; assign_role_to_user "u1" 1 1) db
    = assign_role_to_user "u1" 1 1 db ∧
  get_roles_for_user_in_server "u1" 1 (exec (assign_role_to_user "u1" 1 1) db1)
    = get_roles_for_user_in_server "u1" 1 db1 ∧
  NoDup (get_roles_for_user_in_server "u1" 1 db1).
Proof.
  apply (assign_role_to_user_idempotent _ "u1" 1 1). apply reachable_init.
Defined.

(** ** Roles: [create_role] *)

(** C7: the rank of a role is checked on insertion.  Outside 0..255 the
    INSERT fails its CHECK constraint: [create_role] raises and the store,
    the [roles] table included, is what it was.  Within 0..255 the call
    returns the id of one new row, an id no role had before, with the name
    and rank given and with every capability that [permissions] does not
    mention at its default: 1 for [send_messages] and
    [view_message_history], 0 for the other six. *)
Theorem create_role_rank_checked db name rank permissions :
  (rank < 0 ∨ 255 < rank →
     create_role name rank permissions db = (Raise IntegrityError, db)) ∧
  (0 ≤ rank ∧ rank ≤ 255 →
     ∃ r db',
       create_role name rank permissions db = (Return (Role.role_id r), db') ∧
       roles db' = roles db ++ [r] ∧
       (Role.role_id r ∉ Role.role_id <$> roles db) ∧
       Role.name r = name ∧ Role.rank r = rank ∧
       (permissions !! "send_messages" = None → Role.send_messages r = 1) ∧
       (permissions !! "view_message_history" = None →
          Role.view_message_history r = 1) ∧
       (permissions !! "mute_members" = None → Role.mute_members r = 0) ∧
       (permissions !! "kick_members" = None → Role.kick_members r = 0) ∧
       (permissions !! "ban_members" = None → Role.ban_members r = 0) ∧
       (permissions !! "manage_channels" = None → Role.manage_channels r = 0) ∧
       (permissions !! "manage_server" = None → Role.manage_server r = 0) ∧
       (permissions !! "super_admin" = None → Role.super_admin r = 0)).
Proof.
  split; intros Hrank; unfold create_role, insert_role; unfold_M.
  - rewrite decide_False by lia. done.
  - rewrite decide_True by lia. simpl.
    eexists (Role.mk _ _ _ _ _ _ _ _ _ _ _), _. split; [reflexivity|].
    simpl. split_and!; try done; [apply next_autoincrement_fresh|..];
      unfold permission_int; by intros ->.
Qed.

Lemma create_role_rank_checked_witness :
  let db := exec (init "Town Square") empty_db in
  create_role "Admin" 256 {[ "manage_server" := true ]} db
    = (Raise IntegrityError, db) ∧
  ∃ r db',
    create_role "Admin" 255 {[ "manage_server" := true ]} db
      = (Return (Role.role_id r), db') ∧
    roles db' = roles db ++ [r] ∧
    Role.send_messages r = 1 ∧ Role.kick_members r = 0.
Proof.
  intros db. split.
  - apply (create_role_rank_checked db "Admin" 256). lia.
  - destruct (create_role_rank_checked db "Admin" 255 {[ "manage_server" := true ]})
      as [_ H].
    destruct H as (r & db' & Hrun & Hroles & _ & _ & _ & Hsend & _ & _ & Hkick & _);
      [lia|].
    exists r, db'. split_and!; [done|done|by apply Hsend|by apply Hkick].
Defined.

(** ** Channels: [create_channel_in_server] *)

Lemma get_channel_by_name_Some s n db c :
  get_channel_by_name s n db = Some c →
  c ∈ channels db ∧ Channel.server_id c = s ∧ Channel.name c = n.
Proof.
  unfold get_channel_by_name, fetchone. intros Hhead.
  apply head_Some_elem_of, list_elem_of_filter in Hhead. tauto.
Qed.

(** C4, as the code has it: when the server already has a channel of that
    name, [create_channel_in_server] creates nothing and returns [None],
    not the id of the channel; and in a reachable store a server id that
    no server has makes it raise [ValueError], with the store unchanged. *)
Theorem create_channel_in_server_existing db s n :
  reachable db →
  (∀ c, get_channel_by_name s n db = Some c →
     create_channel_in_server s n db = (Return None, db)) ∧
  (server_exists s db = false →
     create_channel_in_server s n db = (Raise ValueError, db)).
Proof.
  intros Hreach. split.
  - intros c Hc. unfold create_channel_in_server. unfold_M. by rewrite Hc.
  - intros Hserver. unfold create_channel_in_server. unfold_M.
    destruct (get_channel_by_name s n db) as [c|] eqn:Hc.
    + apply get_channel_by_name_Some in Hc as (Hin & Hs & _).
      apply reachable_invariant in Hreach.
      destruct (inv_channel_server db Hreach c Hin) as (srv & Hsrv & Hid).
      assert (server_exists s db = true) as Hex; [|congruence].
      apply server_exists_true, list_elem_of_fmap. exists srv.
      split; [congruence|done].
    + unfold server_exists in Hserver.
      by destruct (select_1 _).
Qed.

Lemma create_channel_in_server_existing_witness :
  let db := exec (init "Town Square") empty_db in
  create_channel_in_server 1 "general" db = (Return None, db) ∧
  create_channel_in_server 2 "general" db = (Raise ValueError, db).
Proof.
  intros db.
  destruct (create_channel_in_server_existing db 1 "general") as [H1 _];
    [apply reachable_init|].
  destruct (create_channel_in_server_existing db 2 "general") as [_ H2];
    [apply reachable_init|].
  split; [by eapply H1|by apply H2].
Defined.

(** C4 as the specification words it fails: the first construction leaves
    channel 1, "general", in server 1, and asking for it again returns
    [None] where the claim promises the id 1. *)
Lemma create_channel_in_server_existing_counterexample :
  let db := exec (init "Town Square") empty_db in
  Channel.channel_id <$> get_channel_by_name 1 "general" db = Some 1 ∧
  run (create_channel_in_server 1 "general") db = Return None ∧
  run (create_channel_in_server 1 "general") db ≠ Return (Some 1).
Proof. by vm_compute. Qed.

(** ** Users: [create_user] *)

Lemma user_exists_false u db :
  user_exists u db = false ↔ u ∉ User.user_uuid <$> users db.
Proof. rewrite <-user_exists_true. by destruct (user_exists u db). Qed.

Lemma create_user_registered name uuid db :
  user_exists uuid db = true →
  create_user name uuid db = (Raise ValueError, db).
Proof. intros Hex. unfold create_user. unfold_M. by rewrite Hex. Qed.

(** After the INSERT into [users] the method goes on to
    [add_user_to_server uuid 1], and returns the rowid only if that call
    returns. *)
Lemma create_user_new name uuid db :
  user_exists uuid db = false →
  let rowid := max_rowid (User.rowid <$> users db) + 1 in
  let db1 := add_user (User.mk rowid uuid name) db in
  create_user name uuid db =
    match add_user_to_server uuid 1 db1 with
    | (Return _, db') => (Return rowid, db')
    | (Raise e, db') => (Raise e, db')
    end.
Proof.
  intros Hnew rowid db1. unfold create_user, insert_user. unfold_M.
  rewrite Hnew. apply user_exists_false in Hnew.
  rewrite decide_False by done. fold rowid db1.
  by destruct (add_user_to_server uuid 1 db1) as [[[]|e] db'].
Qed.

(** C5, as the code has it.  A uuid that is registered makes [create_user]
    raise [ValueError] and change nothing.  A uuid that is neither
    registered nor already on the member list of server 1 makes it return:
    one row with that uuid and username is added to [users], and the user
    is a member of server 1 holding role 1 there.  (The value returned is
    left open here.) *)
Theorem create_user_joins_server_1 db name uuid :
  (user_exists uuid db = true →
     create_user name uuid db = (Raise ValueError, db)) ∧
  (user_exists uuid db = false → is_user_in_server uuid 1 db = false →
     ∃ v u db',
       create_user name uuid db = (Return v, db') ∧
       users db' = users db ++ [u] ∧
       User.user_uuid u = uuid ∧ User.username u = name ∧
       user_exists uuid db' = true ∧
       is_user_in_server uuid 1 db' = true ∧
       UserRole.mk uuid 1 1 ∈ user_roles db').
Proof.
  split; [apply create_user_registered|]. intros Hnew Hout.
  rewrite create_user_new by done.
  rewrite add_user_to_server_new by done.
  eexists _, (User.mk _ uuid name), _. split; [reflexivity|].
  set (db1 := add_membership _ _).
  assert (users (exec (assign_role_to_user uuid 1 1) db1)
          = users db ++ [User.mk (max_rowid (User.rowid <$> users db) + 1) uuid name])
    as Hu.
  { unfold exec. rewrite assign_role_to_user_exec. simpl. by case_decide. }
  split_and!; try done.
  - apply user_exists_true. rewrite Hu, fmap_app. apply elem_of_app. right. by left.
  - apply is_user_in_server_true. unfold exec.
    rewrite assign_role_to_user_exec. simpl.
    case_decide; simpl; apply elem_of_app; right; by left.
  - apply assign_role_to_user_assigned.
Qed.

Lemma create_user_joins_server_1_witness :
  let db := exec (init "Town Square") empty_db in
  create_user "SYSTEM" SYSTEM_UUID db = (Raise ValueError, db) ∧
  ∃ v u db',
    create_user "alice" "u1" db = (Return v, db') ∧
    users db' = users db ++ [u] ∧
    User.user_uuid u = "u1" ∧ User.username u = "alice" ∧
    user_exists "u1" db' = true ∧
    is_user_in_server "u1" 1 db' = true ∧
    UserRole.mk "u1" 1 1 ∈ user_roles db'.
Proof.
  intros db. split.
  - by apply (create_user_joins_server_1 db "SYSTEM" SYSTEM_UUID).
  - by apply (create_user_joins_server_1 db "alice" "u1").
Defined.

(** C5 as the specification words it fails on a uuid that is not
    registered but is already on the member list of server 1, which
    [add_user_to_server] allows: [create_user] inserts the user and then
    raises instead of returning. *)
Lemma create_user_joins_server_1_counterexample :
  let db := exec (add_user_to_server "u1" 1) (exec (init "Town Square") empty_db) in
  user_exists "u1" db = false ∧
  run (create_user "alice" "u1") db = Raise ValueError ∧
  user_exists "u1" (exec (create_user "alice" "u1") db) = true.
Proof. by vm_compute. Qed.

(** What [create_user] returns when it returns: the rowid of the new row
    of [users], an integer, where the variable it is returned through is
    called [user_uuid]. *)
Example create_user_returns_rowid :
  run (create_user "alice" "u1") (exec (init "Town Square") empty_db) = Return 2.
Proof. reflexivity. Qed.

(** ** Members of a server: [users_in_server_id] *)

(** C6, as the code has it: in a reachable store the rows of
    [users_in_server_id] are, one for one, the registered users who are
    members of the server, each user once, and the column of a row is
    that user's username. *)
Theorem users_in_server_id_members db s :
  reachable db →
  ∃ members : list User.t,
    NoDup (User.user_uuid <$> members) ∧
    (∀ u, u ∈ members ↔
       u ∈ users db ∧ is_user_in_server (User.user_uuid u) s db = true) ∧
    item0 <$> users_in_server_id s db = User.username <$> members.
Proof.
  intros Hinv%reachable_invariant.
  exists (filter (λ u, Membership.mk (User.user_uuid u) s ∈ memberships db) (users db)).
  split_and!.
  - destruct Hinv as [Hu _ _ _ _ _ _]. revert Hu.
    generalize (users db). intros us. induction us as [|u us IH]; [done|].
    rewrite fmap_cons, NoDup_cons. intros [Hu Hus].
    rewrite filter_cons. case_decide; [|by apply IH].
    rewrite fmap_cons, NoDup_cons. split; [|by apply IH].
    intros (u' & Heq & [_ Hin]%list_elem_of_filter)%list_elem_of_fmap.
    apply Hu, list_elem_of_fmap. eauto.
  - intros u. rewrite list_elem_of_filter, is_user_in_server_true. tauto.
  - rewrite users_in_server_id_filter by apply Hinv.
    by rewrite <-list_fmap_compose.
Qed.

Lemma users_in_server_id_members_witness :
  ∃ members : list User.t,
    NoDup (User.user_uuid <$> members) ∧
    (∀ u, u ∈ members ↔
       u ∈ users (exec (init "Town Square") empty_db) ∧
       is_user_in_server (User.user_uuid u) 1 (exec (init "Town Square") empty_db)
         = true) ∧
    item0 <$> users_in_server_id 1 (exec (init "Town Square") empty_db)
      = User.username <$> members.
Proof. apply users_in_server_id_members, reachable_init. Defined.

(** The two listings of the members side by side: [users_in_server]
    gives the usernames, [users_in_server_id] the fetched 1-tuples. *)
Example users_in_server_id_rows :
  let db := exec (init "Town Square") empty_db in
  users_in_server "Town Square" db = ["SYSTEM"] ∧
  users_in_server_id 1 db = [Tuple1 "SYSTEM"].
Proof. by vm_compute. Qed.

(** C6 as the specification words it fails: usernames are not keys, and
    two members with one username give two equal entries. *)
Lemma users_in_server_id_members_counterexample :
  let db := exec (create_user "bob" "u2")
              (exec (create_user "bob" "u1") (exec (init "Town Square") empty_db)) in
  users_in_server_id 1 db = [Tuple1 "SYSTEM"; Tuple1 "bob"; Tuple1 "bob"] ∧
  ¬ NoDup (users_in_server_id 1 db).
Proof.
  assert (users_in_server_id 1
            (exec (create_user "bob" "u2")
               (exec (create_user "bob" "u1") (exec (init "Town Square") empty_db)))
          = [Tuple1 "SYSTEM"; Tuple1 "bob"; Tuple1 "bob"]) as Heq
    by (vm_compute; reflexivity).
  simpl. rewrite Heq. split; [done|].
  intros Hnd. apply NoDup_cons in Hnd as [_ Hnd].
  apply NoDup_cons in Hnd as [Hnotin _]. apply Hnotin. by left.
Qed.

(** ** Messages: [create_message_in_channel] and [get_messages_in_channel] *)

Section order_by.
Context {A : Type} (key : A → Z).

Lemma Forall_order_insert (P : A → Prop) x l :
  Forall P (order_insert key x l) ↔ P x ∧ Forall P l.
Proof.
  induction l as [|y l IH]; simpl.
  - rewrite Forall_singleton, Forall_nil. tauto.
  - case_decide; rewrite !Forall_cons; [done|]. rewrite IH. tauto.
Qed.

Lemma order_insert_sorted x l :
  StronglySorted (λ a b, key a ≤ key b) l →
  StronglySorted (λ a b, key a ≤ key b) (order_insert key x l).
Proof.
  induction l as [|y l IH]; simpl; intros Hl.
  - by repeat constructor.
  - apply StronglySorted_cons in Hl as [Hy Hl]. case_decide.
    + apply StronglySorted_cons. split; [|by apply StronglySorted_cons].
      apply Forall_cons. split; [done|].
      eapply Forall_impl; [exact Hy|]. simpl. lia.
    + apply StronglySorted_cons. split; [|by apply IH].
      apply Forall_order_insert. split; [lia|done].
Qed.

Lemma sql_order_by_sorted l :
  StronglySorted (λ a b, key a ≤ key b) (sql_order_by key l).
Proof.
  induction l as [|x l IH]; simpl; [constructor|by apply order_insert_sorted].
Qed.

(** Where a row that is scanned last ends up: behind the rows whose key
    is not larger, in front of the rows whose key is. *)
Lemma order_insert_split a x l1 l2 :
  Forall (λ y, key y ≤ key x) l1 → Forall (λ y, key x < key y) l2 →
  ∃ l1' l2',
    order_insert key a (l1 ++ l2) = l1' ++ l2' ∧
    order_insert key a (l1 ++ x :: l2) = l1' ++ x :: l2' ∧
    Forall (λ y, key y ≤ key x) l1' ∧ Forall (λ y, key x < key y) l2'.
Proof.
  induction l1 as [|y l1 IH]; simpl; intros H1 H2.
  - destruct (decide (key a ≤ key x)) as [Hax|Hax].
    + exists [a], l2. split_and!; [|done|by apply Forall_singleton|done].
      destruct H2 as [|z l2 Hz H2]; simpl; [done|].
      by rewrite decide_True by lia.
    + exists [], (order_insert key a l2). split_and!; [done..|].
      apply Forall_order_insert. split; [lia|done].
  - apply Forall_cons in H1 as [Hy H1].
    destruct (decide (key a ≤ key y)) as [Hay|Hay].
    + exists (a :: y :: l1), l2. split_and!; [done..| |done].
      rewrite !Forall_cons. split_and!; [lia|done..].
    + destruct (IH H1 H2) as (l1' & l2' & -> & -> & H1' & H2').
      exists (y :: l1'), l2'. split_and!; [done..| |done].
      by apply Forall_cons.
Qed.

Lemma sql_order_by_snoc l x :
  ∃ l1 l2,
    sql_order_by key l = l1 ++ l2 ∧
    sql_order_by key (l ++ [x]) = l1 ++ x :: l2 ∧
    Forall (λ y, key y ≤ key x) l1 ∧ Forall (λ y, key x < key y) l2.
Proof.
  induction l as [|a l IH]; simpl.
  - by exists [], [].
  - destruct IH as (l1 & l2 & -> & -> & H1 & H2).
    by apply order_insert_split.
Qed.
End order_by.

Lemma filter_key_unique {A K} `{EqDecision K} (f : A → K) (x : A) (l : list A) :
  NoDup (f <$> l) → x ∈ l → filter (λ y, f x = f y) l = [x].
Proof.
  induction l as [|y l IH]; [by intros _ ?%elem_of_nil|].
  rewrite fmap_cons, NoDup_cons, elem_of_cons, filter_cons.
  intros [Hy Hl] [->|Hx].
  - rewrite decide_True by done. f_equal.
    apply elem_of_nil_inv. intros z [Hz Hin]%list_elem_of_filter.
    apply Hy. rewrite Hz. apply list_elem_of_fmap. eauto.
  - rewrite decide_False; [by apply IH|].
    intros Heq. apply Hy. rewrite <-Heq. apply list_elem_of_fmap. eauto.
Qed.

Lemma get_user_registered uuid db :
  NoDup (User.user_uuid <$> users db) → user_exists uuid db = true →
  ∃ u, get_user uuid db = Some u ∧ User.user_uuid u = uuid ∧
       filter (λ u', uuid = User.user_uuid u') (users db) = [u].
Proof.
  intros Hnd (u & -> & Hin)%user_exists_true%list_elem_of_fmap. exists u.
  pose proof (filter_key_unique User.user_uuid u (users db) Hnd Hin) as Hf.
  split_and!; [|done..].
  unfold get_user.
  rewrite (list_filter_iff _ (λ y, User.user_uuid u = User.user_uuid y)).
  - by rewrite Hf.
  - intros y. split; congruence.
Qed.

Lemma StronglySorted_fmap_key {A} (key : A → Z) (l : list A) :
  StronglySorted (λ a b, key a ≤ key b) l → StronglySorted Z.le (key <$> l).
Proof.
  induction 1 as [|a l Hl IH Ha]; [constructor|].
  rewrite fmap_cons. constructor; [exact IH|]. apply Forall_fmap. exact Ha.
Qed.

Lemma select_1_elem_of {A} (rows : list A) a :
  a ∈ rows → ∃ t, select_1 rows = Some t.
Proof. destruct rows; [by intros ?%elem_of_nil|]. simpl. eauto. Qed.

Lemma create_message_in_channel_returns now ch uuid name content db :
  ch ∈ Channel.channel_id <$> channels db → user_exists uuid db = true →
  let mid := next_autoincrement (Message.message_id <$> messages db) (seq_messages db) in
  create_message_in_channel now ch uuid name content db =
    (Return mid, add_message (Message.mk mid content now uuid name ch) db).
Proof.
  intros (c & -> & Hc)%list_elem_of_fmap (u & -> & Hu)%user_exists_true%list_elem_of_fmap mid.
  unfold create_message_in_channel, insert_message. unfold_M.
  destruct (select_1_elem_of (filter (λ c', Channel.channel_id c' = Channel.channel_id c)
                                (channels db)) c) as [t ->];
    [by apply list_elem_of_filter|].
  destruct (select_1_elem_of (filter (λ u', User.user_uuid u' = User.user_uuid u)
                                (users db)) u) as [t' ->];
    [by apply list_elem_of_filter|].
  done.
Qed.

Lemma sql_left_join_snoc {A B} (on : A * B → Prop) `{!∀ p, Decision (on p)}
    (l : list A) (a : A) (k : list B) (b : B) :
  filter (λ b', on (a, b')) k = [b] →
  sql_left_join on (l ++ [a]) k = sql_left_join on l k ++ [(a, Some b)].
Proof.
  intros Hb. unfold sql_left_join. rewrite bind_app. f_equal.
  rewrite bind_singleton. by rewrite Hb.
Qed.

(** C9, as the code has it.  Posting to an existing channel as a
    registered user returns the id of a new message, and the history of
    the channel then is the history before with one entry put in: the id,
    the content, the moment of the insertion, and the username under which
    the author is registered (the [user_name] argument does not show).
    The entry stands behind every older entry whose timestamp is not later
    than its own and in front of the others, so it is the last one when no
    older message of the channel carries a later timestamp; and the
    history is in ascending order of timestamp. *)
Theorem create_message_in_channel_history db now ch uuid name content :
  reachable db →
  ch ∈ Channel.channel_id <$> channels db → user_exists uuid db = true →
  ∃ mid u db' before after,
    create_message_in_channel now ch uuid name content db = (Return mid, db') ∧
    (mid ∉ Message.message_id <$> messages db) ∧
    get_user uuid db = Some u ∧
    get_messages_in_channel ch db = before ++ after ∧
    get_messages_in_channel ch db' =
      before ++ (mid, content, now, Some (User.username u)) :: after ∧
    Forall (λ r, row_timestamp r ≤ now) before ∧
    Forall (λ r, now < row_timestamp r) after ∧
    (Forall (λ r, row_timestamp r ≤ now) (get_messages_in_channel ch db) →
       after = []) ∧
    StronglySorted Z.le (row_timestamp <$> get_messages_in_channel ch db').
Proof.
  intros Hinv%reachable_invariant Hch Hex.
  destruct (get_user_registered uuid db) as (u & Hget & Hid & Hfilter);
    [apply Hinv|done|].
  set (mid := next_autoincrement (Message.message_id <$> messages db) (seq_messages db)).
  set (m := Message.mk mid content now uuid name ch).
  set (key := λ p : Message.t * option User.t, Message.timestamp p.1).
  assert (∀ l : list (Message.t * option User.t),
            row_timestamp <$> (select_message_row <$> l) = key <$> l) as Hkey.
  { intros l. rewrite <-list_fmap_compose. by apply list_fmap_ext. }
  assert (∃ rows,
    get_messages_in_channel ch db = select_message_row <$> sql_order_by key rows ∧
    get_messages_in_channel ch (add_message m db) =
      select_message_row <$> sql_order_by key (rows ++ [(m, Some u)]))
    as (rows & Hold & Hnew).
  { eexists. split; [reflexivity|]. unfold get_messages_in_channel. simpl.
    rewrite (sql_left_join_snoc _ _ m _ u) by done.
    rewrite filter_app, (filter_cons_True _ (m, Some u)) by done. done. }
  assert (StronglySorted Z.le
            (row_timestamp <$> get_messages_in_channel ch (add_message m db)))
    as Hasc.
  { rewrite Hnew, Hkey. apply StronglySorted_fmap_key, sql_order_by_sorted. }
  destruct (sql_order_by_snoc key rows (m, Some u)) as (l1 & l2 & Hs1 & Hs2 & H1 & H2).
  exists mid, u, (add_message m db), (select_message_row <$> l1),
    (select_message_row <$> l2).
  split; [by apply create_message_in_channel_returns|].
  split; [apply next_autoincrement_fresh|].
  split_and!; [done| | | | | |done].
  1, 2: by rewrite ?Hold, ?Hnew, ?Hs1, ?Hs2, !fmap_app, ?fmap_cons.
  all: rewrite ?Hold, ?Hs1, ?fmap_app.
  - apply Forall_fmap. eapply Forall_impl; [exact H1|]. by intros [m' u'].
  - apply Forall_fmap. eapply Forall_impl; [exact H2|]. by intros [m' u'].
  - intros [_ Hafter]%Forall_app. apply Forall_fmap in Hafter.
    destruct l2 as [|p l2]; [done|].
    apply Forall_cons in Hafter as [Hp _]. apply Forall_cons in H2 as [Hp' _].
    destruct p as [m' u'].
    assert (Message.timestamp m' ≤ now) as Hle by exact Hp.
    assert (now < Message.timestamp m') as Hlt by exact Hp'.
    lia.
Qed.

Lemma create_message_in_channel_history_witness :
  let db := exec (init "Town Square") empty_db in
  ∃ mid u db' before after,
    create_message_in_channel 100 1 SYSTEM_UUID "SYSTEM" "hello" db
      = (Return mid, db') ∧
    (mid ∉ Message.message_id <$> messages db) ∧
    get_user SYSTEM_UUID db = Some u ∧
    get_messages_in_channel 1 db = before ++ after ∧
    get_messages_in_channel 1 db' =
      before ++ (mid, "hello", 100, Some (User.username u)) :: after ∧
    Forall (λ r, row_timestamp r ≤ 100) before ∧
    Forall (λ r, 100 < row_timestamp r) after ∧
    (Forall (λ r, row_timestamp r ≤ 100) (get_messages_in_channel 1 db) →
       after = []) ∧
    StronglySorted Z.le (row_timestamp <$> get_messages_in_channel 1 db').
Proof.
  apply create_message_in_channel_history.
  - apply reachable_init.
  - vm_compute. by left.
  - reflexivity.
Defined.

(** C9 as the specification words it fails: post as the registered user
    "alice" under the author name "nick", and the history shows "alice". *)
Lemma create_message_in_channel_history_counterexample :
  let db := exec (create_user "alice" "u1") (exec (init "Town Square") empty_db) in
  run (create_message_in_channel 100 1 "u1" "nick" "hi") db = Return 1 ∧
  get_messages_in_channel 1 (exec (create_message_in_channel 100 1 "u1" "nick" "hi") db)
    = [(1, "hi", 100, Some "alice")] ∧
  (1, "hi", 100, Some "nick")
    ∉ get_messages_in_channel 1 (exec (create_message_in_channel 100 1 "u1" "nick" "hi") db).
Proof.
  assert (get_messages_in_channel 1
            (exec (create_message_in_channel 100 1 "u1" "nick" "hi")
               (exec (create_user "alice" "u1") (exec (init "Town Square") empty_db)))
          = [(1, "hi", 100, Some "alice")]) as Heq
    by (vm_compute; reflexivity).
  simpl. rewrite Heq. split_and!; [by vm_compute|done|].
  by intros [=]%list_elem_of_singleton.
Qed.

(** * Further properties of the methods *)

(** ** Every call is a sequence of checked changes *)

Lemma fetchone_filter_None {A} (P : A → Prop) `{!∀ x, Decision (P x)} (l : list A) :
  fetchone (filter P l) = None ↔ ∀ x, x ∈ l → ¬ P x.
Proof.
  unfold fetchone. rewrite head_None. split.
  - intros Hnil x Hx HP. eapply (filter_nil_not_elem_of P); eauto.
  - intros Hall. apply elem_of_nil_inv. intros x [HP Hx]%list_elem_of_filter.
    by eapply Hall.
Qed.

Lemma max_rowid_fresh (ids : list Z) : max_rowid ids + 1 ∉ ids.
Proof. intros Hin%max_rowid_ge. lia. Qed.

Lemma get_server_by_name_None n db :
  get_server_by_name n db = None ↔ n ∉ Server.name <$> servers db.
Proof.
  unfold get_server_by_name. rewrite fetchone_filter_None, list_elem_of_fmap.
  split.
  - intros Hall (s & -> & Hs). by eapply Hall.
  - intros Hnot s Hs Heq. apply Hnot. eauto.
Qed.

Lemma get_channel_by_name_None s n db :
  get_channel_by_name s n db = None ↔
    (s, n) ∉ (λ c, (Channel.server_id c, Channel.name c)) <$> channels db.
Proof.
  unfold get_channel_by_name. rewrite fetchone_filter_None, list_elem_of_fmap.
  split.
  - intros Hall (c & [= -> ->] & Hc). by eapply Hall.
  - intros Hnot c Hc [Hs Hn]. apply Hnot. exists c. by rewrite Hs, Hn.
Qed.

Lemma server_exists_false s db :
  server_exists s db = false ↔ s ∉ Server.server_id <$> servers db.
Proof. rewrite <-server_exists_true. by destruct (server_exists s db). Qed.

Lemma create_server_exec n db :
  create_server n db =
    match get_server_by_name n db with
    | Some _ => (Raise ValueError, db)
    | None =>
        let id := max_rowid (Server.server_id <$> servers db) + 1 in
        (Return id, add_server (Server.mk id n) db)
    end.
Proof.
  unfold create_server, insert_server. unfold_M.
  by destruct (get_server_by_name n db).
Qed.

Lemma create_channel_in_server_exec s n db :
  create_channel_in_server s n db =
    match get_channel_by_name s n db with
    | Some _ => (Return None, db)
    | None =>
        if server_exists s db then
          let id := next_autoincrement (Channel.channel_id <$> channels db)
                      (seq_channels db) in
          (Return (Some id), add_channel (Channel.mk id n s) db)
        else (Raise ValueError, db)
    end.
Proof.
  unfold create_channel_in_server, insert_channel, server_exists. unfold_M.
  destruct (get_channel_by_name s n db); [done|].
  by destruct (select_1 _).
Qed.

Lemma create_message_in_channel_exec now ch uuid name content db :
  create_message_in_channel now ch uuid name content db =
    if decide (ch ∈ Channel.channel_id <$> channels db) then
      if user_exists uuid db then
        let mid := next_autoincrement (Message.message_id <$> messages db)
                     (seq_messages db) in
        (Return mid, add_message (Message.mk mid content now uuid name ch) db)
      else (Raise ValueError, db)
    else (Raise ValueError, db).
Proof.
  case_decide as Hch.
  - destruct (user_exists uuid db) eqn:Hu.
    + by apply create_message_in_channel_returns.
    + unfold create_message_in_channel, user_exists in *. unfold_M.
      apply list_elem_of_fmap in Hch as (c & -> & Hc).
      destruct (select_1_elem_of
                  (filter (λ c', Channel.channel_id c' = Channel.channel_id c)
                     (channels db)) c) as [t ->];
        [by apply list_elem_of_filter|].
      by destruct (select_1 _).
  - unfold create_message_in_channel. unfold_M.
    destruct (select_1 _) eqn:Hsel; [|done]. exfalso. apply Hch.
    assert (is_not_None (select_1 (filter (λ c, Channel.channel_id c = ch)
                                     (channels db))) = true) as Hsome
      by (by rewrite Hsel).
    apply is_not_None_select_1 in Hsome as (c & [Hid Hc]%list_elem_of_filter).
    apply list_elem_of_fmap. eauto.
Qed.

Lemma updates_ret {A} (a : A) : updates (mret a).
Proof. intros db. done. Qed.

Lemma updates_raise {A} e : updates (@raise A e).
Proof. intros db. done. Qed.

Lemma updates_gets {A} (f : Database → A) : updates (gets f).
Proof. intros db. done. Qed.

Lemma updates_commit : updates commit.
Proof. intros db. done. Qed.

Lemma updates_bind {A B} (m : M A) (k : A → M B) :
  updates m → (∀ a, updates (k a)) → updates (m ≫= k).
Proof.
  intros Hm Hk db. rewrite exec_bind.
  destruct (run m db); [|apply Hm]. etrans; [apply Hm|apply Hk].
Qed.

Lemma create_server_updates n : updates (create_server n).
Proof.
  intros db. unfold exec. rewrite create_server_exec.
  destruct (get_server_by_name n db) eqn:Hget; simpl; [done|].
  apply rtc_once, update_add_server; simpl.
  - apply max_rowid_fresh.
  - by apply get_server_by_name_None.
Qed.

Lemma create_channel_in_server_updates s n : updates (create_channel_in_server s n).
Proof.
  intros db. unfold exec. rewrite create_channel_in_server_exec.
  destruct (get_channel_by_name s n db) eqn:Hget; simpl; [done|].
  destruct (server_exists s db) eqn:Hs; simpl; [|done].
  apply rtc_once, update_add_channel; simpl.
  - apply next_autoincrement_fresh.
  - by apply server_exists_true.
  - by apply get_channel_by_name_None.
Qed.

Lemma create_message_in_channel_updates now ch uuid name content :
  updates (create_message_in_channel now ch uuid name content).
Proof.
  intros db. unfold exec. rewrite create_message_in_channel_exec.
  case_decide; simpl; [|done].
  destruct (user_exists uuid db) eqn:Hu; simpl; [|done].
  apply rtc_once, update_add_message; simpl;
    [apply next_autoincrement_fresh|done|by apply user_exists_true].
Qed.

Lemma create_role_updates name rank permissions :
  updates (create_role name rank permissions).
Proof.
  intros db. unfold create_role, insert_role. unfold_M.
  case_decide; simpl; [|done].
  apply rtc_once, update_add_role; simpl;
    [apply next_autoincrement_fresh|done|].
  repeat split; apply permission_int_bit; unfold is_bit; auto.
Qed.

Lemma assign_role_to_user_updates u r s : updates (assign_role_to_user u r s).
Proof.
  intros db. unfold exec. rewrite assign_role_to_user_exec. simpl.
  case_decide; [done|]. by apply rtc_once, update_add_user_role.
Qed.

Lemma update_username_updates u n : updates (update_username u n).
Proof. intros db. apply rtc_once, update_rename. Qed.

Lemma insert_membership_updates u s : updates (insert_membership u s).
Proof.
  intros db. unfold insert_membership, exec. case_decide; simpl; [done|].
  by apply rtc_once, update_add_membership.
Qed.

Lemma insert_user_updates u n : updates (insert_user u n).
Proof.
  intros db. unfold insert_user, exec. case_decide; simpl; [done|].
  apply rtc_once, update_add_user; simpl; [done|apply max_rowid_fresh].
Qed.

Lemma add_user_to_server_updates u s : updates (add_user_to_server u s).
Proof.
  unfold add_user_to_server.
  apply updates_bind; [apply updates_gets|intros []].
  { apply updates_raise. }
  apply updates_bind; [apply insert_membership_updates|intros result].
  apply updates_bind; [apply assign_role_to_user_updates|intros _].
  apply updates_ret.
Qed.

Lemma create_user_updates n u : updates (create_user n u).
Proof.
  unfold create_user.
  apply updates_bind; [apply updates_gets|intros []].
  { apply updates_raise. }
  apply updates_bind; [apply insert_user_updates|intros ?].
  apply updates_bind; [apply updates_commit|intros _].
  apply updates_bind; [apply add_user_to_server_updates|intros _].
  apply updates_ret.
Qed.

Lemma init_updates title : updates (init title).
Proof.
  unfold init.
  apply updates_bind; [apply updates_gets|intros row].
  apply updates_bind.
  { destruct row; [apply updates_ret|apply create_server_updates]. }
  intros server_id.
  apply updates_bind; [apply updates_gets|intros channel].
  apply updates_bind.
  { destruct channel; [apply updates_ret|].
    apply updates_bind; [apply create_channel_in_server_updates|intros _].
    apply updates_ret. }
  intros _.
  apply updates_bind; [apply updates_gets|intros role].
  apply updates_bind.
  { destruct role; [apply updates_ret|].
    apply updates_bind; [apply create_role_updates|intros _].
    apply updates_ret. }
  intros _.
  apply updates_bind; [apply updates_gets|intros present].
  apply updates_bind.
  { destruct present; [apply updates_ret|].
    apply updates_bind; [apply create_user_updates|intros _].
    apply updates_ret. }
  intros _. apply updates_commit.
Qed.

Lemma perform_updates c db : rtc update db (perform c db).
Proof.
  destruct c; simpl.
  - apply init_updates.
  - apply create_role_updates.
  - apply assign_role_to_user_updates.
  - apply update_username_updates.
  - apply create_channel_in_server_updates.
  - apply create_message_in_channel_updates.
  - apply create_server_updates.
  - apply create_user_updates.
  - apply add_user_to_server_updates.
Qed.

(** ** Stores only grow *)

Lemma grows_refl db : grows db db.
Proof. by constructor. Qed.

Lemma grows_trans db1 db2 db3 : grows db1 db2 → grows db2 db3 → grows db1 db3.
Proof. intros [] []. constructor; by etrans. Qed.

Lemma rename_user_uuids n u db :
  User.user_uuid <$> users (exec (update_users_username n u) db)
  = User.user_uuid <$> users db.
Proof.
  unfold update_users_username. unfold_M. simpl.
  rewrite <-list_fmap_compose. apply list_fmap_ext.
  intros i x _. simpl. by case_decide.
Qed.

Lemma rename_user_rowids n u db :
  User.rowid <$> users (exec (update_users_username n u) db)
  = User.rowid <$> users db.
Proof.
  unfold update_users_username. unfold_M. simpl.
  rewrite <-list_fmap_compose. apply list_fmap_ext.
  intros i x _. simpl. by case_decide.
Qed.

Lemma update_grows db db' : update db db' → grows db db'.
Proof.
  destruct 1; constructor; rewrite ?rename_user_uuids, ?rename_user_rowids;
    simpl; rewrite ?fmap_app; try done; by apply prefix_app_r.
Qed.

Lemma rtc_update_grows db db' : rtc update db db' → grows db db'.
Proof.
  induction 1 as [db|db1 db2 db3 Hstep _ IH]; [apply grows_refl|].
  eapply grows_trans; [by apply update_grows|done].
Qed.

Lemma perform_grows c db : grows db (perform c db).
Proof. apply rtc_update_grows, perform_updates. Qed.

Lemma elem_of_prefix {A} (l k : list A) x : l `prefix_of` k → x ∈ l → x ∈ k.
Proof. intros [k' ->] Hx. apply elem_of_app. by left. Qed.

Lemma fetchone_filter_prefix {A} (P : A → Prop) `{!∀ x, Decision (P x)}
    (l k : list A) x :
  l `prefix_of` k → fetchone (filter P l) = Some x → fetchone (filter P k) = Some x.
Proof.
  intros [k' ->] Hl. rewrite filter_app. unfold fetchone in *.
  by destruct (filter P l).
Qed.

(** ** Integrity of reachable stores *)

Lemma update_integrity db db' : update db db' → integrity db → integrity db'.
Proof.
  intros Hupd [Hsi Hsn Hur Hci Hcn Hmi Hmc Hma Hrr Hsys Hfs].
  destruct Hupd; constructor; rewrite ?rename_user_uuids, ?rename_user_rowids;
    simpl; rewrite ?fmap_app; simpl; try done; try (by apply NoDup_snoc).
  - apply elem_of_app. by left.
  - intros m Hm. apply elem_of_app. left. by apply Hma.
  - apply elem_of_app. by left.
  - intros m Hm. apply elem_of_app. left. by apply Hmc.
  - intros m [Hm| ->%list_elem_of_singleton]%elem_of_app; [by apply Hmc|done].
  - intros m [Hm| ->%list_elem_of_singleton]%elem_of_app; [by apply Hma|done].
  - intros r [Hr| ->%list_elem_of_singleton]%elem_of_app; [by apply Hrr|done].
Qed.

Lemma integrity_init title : integrity (exec (init title) empty_db).
Proof.
  rewrite init_empty_db. constructor; simpl;
    try apply NoDup_singleton; try apply NoDup_nil_2; try (by left).
  - by intros m ?%elem_of_nil.
  - by intros m ?%elem_of_nil.
  - intros r ->%list_elem_of_singleton. simpl. lia.
Qed.

Lemma reachable_integrity db : reachable db → integrity db.
Proof.
  induction 1 as [title|c db _ IH]; [apply integrity_init|].
  pose proof (perform_updates c db) as Hsteps.
  induction Hsteps as [db|db1 db2 db3 Hstep _ IH']; [done|].
  apply IH'. by eapply update_integrity.
Qed.

(** ** Servers, channels and messages: create, then look up *)

Lemma filter_none {A} (P : A → Prop) `{!∀ x, Decision (P x)} (l : list A) :
  (∀ x, x ∈ l → ¬ P x) → filter P l = [].
Proof.
  intros Hall. apply elem_of_nil_inv. intros x [HP Hx]%list_elem_of_filter.
  by eapply Hall.
Qed.

Lemma fetchone_filter_snoc {A} (P : A → Prop) `{!∀ x, Decision (P x)}
    (l : list A) (x : A) :
  (∀ y, y ∈ l → ¬ P y) → P x → fetchone (filter P (l ++ [x])) = Some x.
Proof.
  intros Hall Hx. rewrite filter_app, (filter_none P l) by done.
  by rewrite filter_cons_True.
Qed.

(** X1: a server name that is free gives a new server under an id that no
    server had; the server is then found by its name and by its id, and a
    second [create_server] with the name raises and changes nothing. *)
Theorem create_server_then_lookup db n :
  get_server_by_name n db = None →
  ∃ id db',
    create_server n db = (Return id, db') ∧
    (id ∉ Server.server_id <$> servers db) ∧
    servers db' = servers db ++ [Server.mk id n] ∧
    get_server_by_name n db' = Some (Server.mk id n) ∧
    server_exists id db' = true ∧
    create_server n db' = (Raise ValueError, db').
Proof.
  intros Hfree. rewrite create_server_exec, Hfree. simpl.
  set (id := max_rowid (Server.server_id <$> servers db) + 1).
  assert (get_server_by_name n (add_server (Server.mk id n) db)
          = Some (Server.mk id n)) as Hget.
  { unfold get_server_by_name. simpl. apply fetchone_filter_snoc; [|done].
    by apply (fetchone_filter_None (λ s, Server.name s = n)). }
  eexists _, _. split_and!; [done|apply max_rowid_fresh|done|done| |].
  - apply server_exists_true. simpl. rewrite fmap_app.
    apply elem_of_app. right. by left.
  - by rewrite create_server_exec, Hget.
Qed.

Lemma create_server_then_lookup_witness :
  ∃ id db',
    create_server "Harbour" (exec (init "Town Square") empty_db) = (Return id, db') ∧
    (id ∉ Server.server_id <$> servers (exec (init "Town Square") empty_db)) ∧
    servers db' =
      servers (exec (init "Town Square") empty_db) ++ [Server.mk id "Harbour"] ∧
    get_server_by_name "Harbour" db' = Some (Server.mk id "Harbour") ∧
    server_exists id db' = true ∧
    create_server "Harbour" db' = (Raise ValueError, db').
Proof. apply create_server_then_lookup. reflexivity. Defined.

(** X2: in an existing server a channel name that is free there gives a
    new channel under an id that no channel had; the channel is then
    found by server and name, by server and id, and its name by its id;
    and a second [create_channel_in_server] returns [None] and changes
    nothing. *)
Theorem create_channel_in_server_then_lookup db s n :
  server_exists s db = true → get_channel_by_name s n db = None →
  ∃ id db',
    create_channel_in_server s n db = (Return (Some id), db') ∧
    (id ∉ Channel.channel_id <$> channels db) ∧
    channels db' = channels db ++ [Channel.mk id n s] ∧
    get_channel_by_name s n db' = Some (Channel.mk id n s) ∧
    get_channel s id db' = Some (Channel.mk id n s) ∧
    get_channel_name_by_id id db' = Some n ∧
    create_channel_in_server s n db' = (Return None, db').
Proof.
  intros Hs Hfree. rewrite create_channel_in_server_exec, Hfree, Hs. simpl.
  set (id := next_autoincrement (Channel.channel_id <$> channels db) (seq_channels db)).
  assert (∀ c, c ∈ channels db → Channel.channel_id c ≠ id) as Hfresh.
  { intros c Hc Heq. apply (next_autoincrement_fresh
      (Channel.channel_id <$> channels db) (seq_channels db)).
    fold id. rewrite <-Heq. apply list_elem_of_fmap. eauto. }
  assert (get_channel_by_name s n (add_channel (Channel.mk id n s) db)
          = Some (Channel.mk id n s)) as Hget.
  { unfold get_channel_by_name. simpl. apply fetchone_filter_snoc; [|done].
    by apply (fetchone_filter_None
                (λ c, Channel.server_id c = s ∧ Channel.name c = n)). }
  eexists _, _. split_and!; [done|apply next_autoincrement_fresh|done|done| | |].
  - unfold get_channel. simpl. apply fetchone_filter_snoc; [|done].
    intros c Hc [_ Hid]. by eapply Hfresh.
  - unfold get_channel_name_by_id. simpl.
    rewrite filter_app, (filter_none _ (channels db)) by done.
    by rewrite filter_cons_True.
  - by rewrite create_channel_in_server_exec, Hget.
Qed.

Lemma create_channel_in_server_then_lookup_witness :
  ∃ id db',
    create_channel_in_server 1 "random" (exec (init "Town Square") empty_db)
      = (Return (Some id), db') ∧
    (id ∉ Channel.channel_id <$> channels (exec (init "Town Square") empty_db)) ∧
    channels db' =
      channels (exec (init "Town Square") empty_db) ++ [Channel.mk id "random" 1] ∧
    get_channel_by_name 1 "random" db' = Some (Channel.mk id "random" 1) ∧
    get_channel 1 id db' = Some (Channel.mk id "random" 1) ∧
    get_channel_name_by_id id db' = Some "random" ∧
    create_channel_in_server 1 "random" db' = (Return None, db').
Proof. apply create_channel_in_server_then_lookup; reflexivity. Defined.

(** X3: [create_message_in_channel] stores nothing for a channel id that
    no channel has, nor for an author uuid that is not registered: it
    raises [ValueError] and the store is what it was. *)
Theorem create_message_in_channel_rejects db now ch uuid name content :
  (ch ∉ Channel.channel_id <$> channels db) ∨ user_exists uuid db = false →
  create_message_in_channel now ch uuid name content db = (Raise ValueError, db).
Proof.
  intros Hbad. rewrite create_message_in_channel_exec.
  case_decide; [|done]. destruct Hbad as [Hch|Hu]; [done|]. by rewrite Hu.
Qed.

Lemma create_message_in_channel_rejects_witness :
  create_message_in_channel 100 9 SYSTEM_UUID "SYSTEM" "hello"
    (exec (init "Town Square") empty_db)
  = (Raise ValueError, exec (init "Town Square") empty_db).
Proof.
  apply create_message_in_channel_rejects. left.
  rewrite init_empty_db. simpl.
  intros [Heq|Hin%elem_of_nil]%elem_of_cons; [discriminate|done].
Defined.

(** X4: a message that is accepted gets an id larger than the id of every
    message stored before, and is stored with the content, the author's
    uuid, the channel and the [user_name] given by the caller; no other
    table changes. *)
Theorem create_message_in_channel_stores db now ch uuid name content :
  ch ∈ Channel.channel_id <$> channels db → user_exists uuid db = true →
  ∃ mid db',
    create_message_in_channel now ch uuid name content db = (Return mid, db') ∧
    (∀ m, m ∈ messages db → Message.message_id m < mid) ∧
    messages db' = messages db ++ [Message.mk mid content now uuid name ch] ∧
    servers db' = servers db ∧ users db' = users db ∧
    memberships db' = memberships db ∧ channels db' = channels db ∧
    roles db' = roles db ∧ user_roles db' = user_roles db.
Proof.
  intros Hch Hu. rewrite create_message_in_channel_exec, Hu.
  rewrite decide_True by done. simpl. eexists _, _.
  split_and!; try done.
  intros m Hm. unfold next_autoincrement.
  assert (Message.message_id m ≤ max_rowid (Message.message_id <$> messages db));
    [|lia].
  apply max_rowid_ge, list_elem_of_fmap. eauto.
Qed.

Lemma create_message_in_channel_stores_witness :
  let db := exec (init "Town Square") empty_db in
  ∃ mid db',
    create_message_in_channel 100 1 SYSTEM_UUID "sys" "hello" db = (Return mid, db') ∧
    (∀ m, m ∈ messages db → Message.message_id m < mid) ∧
    messages db' = messages db ++ [Message.mk mid "hello" 100 SYSTEM_UUID "sys" 1] ∧
    servers db' = servers db ∧ users db' = users db ∧
    memberships db' = memberships db ∧ channels db' = channels db ∧
    roles db' = roles db ∧ user_roles db' = user_roles db.
Proof.
  apply create_message_in_channel_stores; [|reflexivity].
  vm_compute. by left.
Defined.

(** ** Membership and permissions: what repeats and what stays *)

(** X5: a membership is not granted twice.  After a user has been added
    to a server, adding the same user to the same server again raises
    [ValueError] and leaves the store as it was. *)
Theorem add_user_to_server_twice db u s :
  is_user_in_server u s db = false →
  let db1 := exec (add_user_to_server u s) db in
  add_user_to_server u s db1 = (Raise ValueError, db1).
Proof.
  intros Hnew db1. apply add_user_to_server_member.
  unfold db1, exec. rewrite add_user_to_server_new by done. simpl.
  apply is_user_in_server_true. unfold exec.
  rewrite assign_role_to_user_exec. simpl.
  case_decide; simpl; apply elem_of_app; right; by left.
Qed.

Lemma add_user_to_server_twice_witness :
  let db1 := exec (add_user_to_server "u1" 1) (exec (init "Town Square") empty_db) in
  add_user_to_server "u1" 1 db1 = (Raise ValueError, db1).
Proof. apply add_user_to_server_twice. reflexivity. Defined.

(** X6: [can_user] answers exactly for the eight capability names.  On
    one of them it returns a boolean; on any other string, the names of
    the other columns of [roles] included, it raises [ValueError]; and
    the column it was asked for is never unknown to the engine. *)
Theorem can_user_validates_permission db u s permission :
  (permission ∈ valid_permissions ↔ ∃ b, can_user u s permission db = Return b) ∧
  (permission ∉ valid_permissions ↔ can_user u s permission db = Raise ValueError) ∧
  can_user u s permission db ≠ Raise OperationalError.
Proof.
  destruct (decide (permission ∈ valid_permissions)) as [Hp|Hp].
  - destruct (can_user_returns_bool db u s permission Hp) as [b Hb].
    rewrite Hb. split_and!; [|split; [done|discriminate]|discriminate].
    split; eauto.
  - assert (can_user u s permission db = Raise ValueError) as ->.
    { unfold can_user. by rewrite decide_False. }
    split_and!; [|done|discriminate].
    split; [done|]. by intros [b [=]].
Qed.

Lemma sql_join_snoc_none {A B} (on : A * B → Prop) `{!∀ p, Decision (on p)}
    (l : list A) (k : list B) (b : B) :
  (∀ a, a ∈ l → ¬ on (a, b)) → sql_join on l (k ++ [b]) = sql_join on l k.
Proof.
  intros Hnone. unfold sql_join. induction l as [|a l IH]; [done|].
  rewrite !bind_cons, IH by (intros a' Ha'; apply Hnone; by right).
  rewrite filter_app, (filter_cons_False _ b) by (apply Hnone; by left).
  by rewrite filter_nil, app_nil_r.
Qed.

Lemma can_user_held_roles u s permission db db' :
  held_roles u s db' = held_roles u s db →
  can_user u s permission db' = can_user u s permission db.
Proof. intros Heq. unfold can_user. by rewrite Heq. Qed.

Lemma held_roles_assign_other u r s u' s' db :
  (∀ x, x ∈ roles db →
     ¬ (UserRole.user_uuid (UserRole.mk u r s) = u'
        ∧ UserRole.server_id (UserRole.mk u r s) = s'
        ∧ Role.role_id x = r)) →
  held_roles u' s' (exec (assign_role_to_user u r s) db) = held_roles u' s' db.
Proof.
  intros Hnone. unfold exec. rewrite assign_role_to_user_exec. simpl.
  case_decide; [done|]. unfold held_roles. simpl.
  rewrite !filter_sql_join. apply sql_join_snoc_none.
  intros x Hx [[Hu Hs] Hid]. simpl in *. by eapply Hnone.
Qed.

(** X7: role assignments are per user and per server.  Assigning a role
    to [u] in [s] changes neither the roles nor any capability of another
    user, or of [u] in another server. *)
Theorem assign_role_to_user_elsewhere db u r s u' s' permission :
  u' ≠ u ∨ s' ≠ s →
  let db1 := exec (assign_role_to_user u r s) db in
  get_roles_for_user_in_server u' s' db1 = get_roles_for_user_in_server u' s' db ∧
  can_user u' s' permission db1 = can_user u' s' permission db.
Proof.
  intros Hother db1.
  assert (held_roles u' s' db1 = held_roles u' s' db) as Hheld.
  { apply held_roles_assign_other. intros x _ (Hu & Hs & _). simpl in *.
    destruct Hother; congruence. }
  split; [|by apply can_user_held_roles].
  unfold get_roles_for_user_in_server. by rewrite Hheld.
Qed.

Lemma assign_role_to_user_elsewhere_witness :
  let db := exec (init "Town Square") empty_db in
  let db1 := exec (assign_role_to_user "u1" 1 1) db in
  get_roles_for_user_in_server "u1" 2 db1 = get_roles_for_user_in_server "u1" 2 db ∧
  can_user "u1" 2 "send_messages" db1 = can_user "u1" 2 "send_messages" db.
Proof.
  apply (assign_role_to_user_elsewhere _ "u1" 1 1 "u1" 2). right. discriminate.
Defined.

(** X8: [assign_role_to_user] accepts a role id that no role has, and
    such an assignment gives nothing: the roles and the capabilities of
    every user in every server are what they were. *)
Theorem assign_role_to_user_unknown_role db u r s u' s' permission :
  (r ∉ Role.role_id <$> roles db) →
  let db1 := exec (assign_role_to_user u r s) db in
  run (assign_role_to_user u r s) db = Return tt ∧
  UserRole.mk u r s ∈ user_roles db1 ∧
  get_roles_for_user_in_server u' s' db1 = get_roles_for_user_in_server u' s' db ∧
  can_user u' s' permission db1 = can_user u' s' permission db.
Proof.
  intros Hunknown db1.
  assert (held_roles u' s' db1 = held_roles u' s' db) as Hheld.
  { apply held_roles_assign_other. intros x Hx (_ & _ & Hid).
    apply Hunknown. rewrite <-Hid. apply list_elem_of_fmap. eauto. }
  split_and!.
  - unfold run. by rewrite assign_role_to_user_exec.
  - apply assign_role_to_user_assigned.
  - unfold get_roles_for_user_in_server. by rewrite Hheld.
  - by apply can_user_held_roles.
Qed.

Lemma assign_role_to_user_unknown_role_witness :
  let db := exec (init "Town Square") empty_db in
  let db1 := exec (assign_role_to_user "u1" 5 1) db in
  run (assign_role_to_user "u1" 5 1) db = Return tt ∧
  UserRole.mk "u1" 5 1 ∈ user_roles db1 ∧
  get_roles_for_user_in_server "u1" 1 db1 = get_roles_for_user_in_server "u1" 1 db ∧
  can_user "u1" 1 "send_messages" db1 = can_user "u1" 1 "send_messages" db.
Proof.
  apply (assign_role_to_user_unknown_role _ "u1" 5 1 "u1" 1).
  rewrite init_empty_db. simpl.
  intros [Heq|Hin%elem_of_nil]%elem_of_cons; [discriminate|done].
Defined.

Lemma create_role_in_range db name rank permissions :
  0 ≤ rank ∧ rank ≤ 255 →
  ∃ x,
    create_role name rank permissions db = (Return (Role.role_id x), add_role x db) ∧
    Role.role_id x = next_autoincrement (Role.role_id <$> roles db) (seq_roles db) ∧
    Role.name x = name ∧ Role.rank x = rank.
Proof.
  intros Hrank. unfold create_role, insert_role. unfold_M.
  rewrite decide_True by done. simpl.
  by eexists (Role.mk _ _ _ _ _ _ _ _ _ _ _).
Qed.

(** X9: an assignment made before the role exists comes alive.  Assign
    the id that the next role will get, then create a role: the user holds
    the new role in that server without any further assignment. *)
Theorem assign_role_to_user_before_create_role db u s name rank permissions :
  0 ≤ rank ∧ rank ≤ 255 →
  let r := next_autoincrement (Role.role_id <$> roles db) (seq_roles db) in
  let db1 := exec (assign_role_to_user u r s) db in
  let db2 := exec (create_role name rank permissions) db1 in
  get_roles_for_user_in_server u s db1 = get_roles_for_user_in_server u s db ∧
  run (create_role name rank permissions) db1 = Return r ∧
  ∃ x, x ∈ get_roles_for_user_in_server u s db2 ∧
       Role.role_id x = r ∧ Role.name x = name ∧ x ∉ roles db.
Proof.
  intros Hrank r db1 db2.
  assert (r ∉ Role.role_id <$> roles db) as Hfresh
    by apply next_autoincrement_fresh.
  assert (roles db1 = roles db) as Hroles by apply assign_role_to_user_roles.
  assert (seq_roles db1 = seq_roles db) as Hseq.
  { unfold db1, exec. rewrite assign_role_to_user_exec. simpl. by case_decide. }
  destruct (create_role_in_range db1 name rank permissions Hrank)
    as (x & Hrun & Hid & Hname & _).
  assert (Role.role_id x = r) as Hidr by (by rewrite Hid, Hroles, Hseq).
  split_and!.
  - unfold get_roles_for_user_in_server. f_equal.
    apply held_roles_assign_other.
    intros y Hy (_ & _ & Hid'). apply Hfresh. rewrite <-Hid'.
    apply list_elem_of_fmap. eauto.
  - unfold run. rewrite Hrun. simpl. by rewrite Hidr.
  - exists x. split_and!; [|done|done|].
    + apply elem_of_get_roles_for_user_in_server.
      replace db2 with (add_role x db1) by (unfold db2, exec; by rewrite Hrun).
      simpl. split.
      * apply elem_of_app. right. by left.
      * rewrite Hidr. exact (assign_role_to_user_assigned u r s db).
    + intros Hin. apply Hfresh. rewrite <-Hidr.
      apply list_elem_of_fmap. eauto.
Qed.

Lemma assign_role_to_user_before_create_role_witness :
  let db := exec (init "Town Square") empty_db in
  let r := next_autoincrement (Role.role_id <$> roles db) (seq_roles db) in
  let db1 := exec (assign_role_to_user "u1" r 1) db in
  let db2 := exec (create_role "Admin" 200 ∅) db1 in
  get_roles_for_user_in_server "u1" 1 db1 = get_roles_for_user_in_server "u1" 1 db ∧
  run (create_role "Admin" 200 ∅) db1 = Return r ∧
  ∃ x, x ∈ get_roles_for_user_in_server "u1" 1 db2 ∧
       Role.role_id x = r ∧ Role.name x = "Admin" ∧ x ∉ roles db.
Proof.
  apply (assign_role_to_user_before_create_role _ "u1" 1 "Admin" 200 ∅). lia.
Defined.

(** ** What no sequence of calls undoes *)

Lemma perform_all_grows cs db : grows db (perform_all cs db).
Proof.
  revert db. induction cs as [|c cs IH]; intros db; [apply grows_refl|].
  simpl. eapply grows_trans; [apply perform_grows|apply IH].
Qed.

Lemma reachable_perform_all cs db : reachable db → reachable (perform_all cs db).
Proof.
  revert db. induction cs as [|c cs IH]; intros db Hdb; [done|].
  simpl. by apply IH, reachable_call.
Qed.

(** X10: the store is append-only.  Whatever calls are made, in whatever
    order and whether they return or raise, every row of [servers],
    [memberships], [channels], [messages], [roles] and [user_roles] stays
    where and what it was, and so do the uuid and the rowid of every
    user; rows are only added behind them. *)
Theorem calls_only_append cs db :
  let db' := perform_all cs db in
  servers db `prefix_of` servers db' ∧
  memberships db `prefix_of` memberships db' ∧
  channels db `prefix_of` channels db' ∧
  messages db `prefix_of` messages db' ∧
  roles db `prefix_of` roles db' ∧
  user_roles db `prefix_of` user_roles db' ∧
  User.user_uuid <$> users db `prefix_of` User.user_uuid <$> users db' ∧
  User.rowid <$> users db `prefix_of` User.rowid <$> users db'.
Proof.
  intros db'. destruct (perform_all_grows cs db). by split_and!.
Qed.

(** X11: nothing is ever revoked.  In a reachable store, a role that a
    user holds in a server is still held after any further calls, and a
    capability that [can_user] grants is still granted. *)
Theorem calls_never_revoke cs db u s permission :
  reachable db →
  let db' := perform_all cs db in
  (∀ r, r ∈ get_roles_for_user_in_server u s db →
        r ∈ get_roles_for_user_in_server u s db') ∧
  (can_user u s permission db = Return true →
   can_user u s permission db' = Return true).
Proof.
  intros Hreach db'.
  pose proof (perform_all_grows cs db) as Hgrows. fold db' in Hgrows.
  assert (∀ r, r ∈ get_roles_for_user_in_server u s db →
               r ∈ get_roles_for_user_in_server u s db') as Hroles.
  { intros r [Hr Hur]%elem_of_get_roles_for_user_in_server.
    apply elem_of_get_roles_for_user_in_server. split.
    - eapply elem_of_prefix; [apply Hgrows|done].
    - eapply elem_of_prefix; [apply Hgrows|done]. }
  split; [done|]. intros Hcan.
  assert (permission ∈ valid_permissions) as Hp.
  { destruct (decide (permission ∈ valid_permissions)) as [|Hp]; [done|].
    unfold can_user in Hcan. by rewrite decide_False in Hcan. }
  apply can_user_true_iff in Hcan as (r & Hr & Hg);
    [|by apply reachable_invariant|done].
  apply can_user_true_iff; [|done|by eauto].
  by apply reachable_invariant, reachable_perform_all.
Qed.

Lemma calls_never_revoke_witness :
  let db := exec (init "Town Square") empty_db in
  let db' := perform_all [CreateRole "Mod" 10 ∅; UpdateUsername SYSTEM_UUID "root"] db in
  (∀ r, r ∈ get_roles_for_user_in_server SYSTEM_UUID 1 db →
        r ∈ get_roles_for_user_in_server SYSTEM_UUID 1 db') ∧
  (can_user SYSTEM_UUID 1 "send_messages" db = Return true →
   can_user SYSTEM_UUID 1 "send_messages" db' = Return true).
Proof.
  apply (calls_never_revoke
           [CreateRole "Mod" 10 ∅; UpdateUsername SYSTEM_UUID "root"]).
  apply reachable_init.
Defined.

(** ** Integrity without foreign keys *)

Lemma NoDup_fmap_eq {A K} (f : A → K) (l : list A) x y :
  NoDup (f <$> l) → x ∈ l → y ∈ l → f x = f y → x = y.
Proof.
  induction l as [|a l IH]; [by intros _ ?%elem_of_nil|].
  rewrite fmap_cons, NoDup_cons, !elem_of_cons.
  intros [Ha Hl] [->|Hx] [->|Hy] Heq; [done| | |by apply IH].
  - exfalso. apply Ha. rewrite Heq. apply list_elem_of_fmap. eauto.
  - exfalso. apply Ha. rewrite <-Heq. apply list_elem_of_fmap. eauto.
Qed.

Lemma fetchone_unique {A} (l : list A) x :
  x ∈ l → (∀ y, y ∈ l → y = x) → fetchone l = Some x.
Proof.
  destruct l as [|a l]; [by intros ?%elem_of_nil|].
  intros _ Hall. simpl. f_equal. apply Hall. by left.
Qed.

Lemma fetchone_filter_key {A K} (f : A → K) (P : A → Prop)
    `{!∀ x, Decision (P x)} (l : list A) x :
  NoDup (f <$> l) → x ∈ l → P x → (∀ y, P y → f y = f x) →
  fetchone (filter P l) = Some x.
Proof.
  intros Hnd Hx HP Hkey. apply fetchone_unique.
  - by apply list_elem_of_filter.
  - intros y [HPy Hy]%list_elem_of_filter.
    eapply (NoDup_fmap_eq f); eauto.
Qed.

(** X12: in a reachable store every row is found by its own key, and by
    nothing else: [get_server_by_name] returns the server of that name,
    [get_channel_by_name], [get_channel] and [get_channel_name_by_id]
    return the channel of that server and name or id, and [get_user] the
    user of that uuid.  (Neither server names nor channel names per
    server are unique by the schema; the methods keep them so.) *)
Theorem lookups_are_exact db :
  reachable db →
  (∀ srv, srv ∈ servers db → get_server_by_name (Server.name srv) db = Some srv) ∧
  (∀ c, c ∈ channels db →
     get_channel_by_name (Channel.server_id c) (Channel.name c) db = Some c ∧
     get_channel (Channel.server_id c) (Channel.channel_id c) db = Some c ∧
     get_channel_name_by_id (Channel.channel_id c) db = Some (Channel.name c)) ∧
  (∀ usr, usr ∈ users db → get_user (User.user_uuid usr) db = Some usr).
Proof.
  intros Hreach.
  pose proof (reachable_invariant db Hreach) as Hinv.
  pose proof (reachable_integrity db Hreach) as Hint.
  split_and!.
  - intros srv Hsrv. unfold get_server_by_name.
    apply (fetchone_filter_key Server.name); [apply Hint|done..].
  - intros c Hc. split_and!.
    + unfold get_channel_by_name.
      apply (fetchone_filter_key (λ c, (Channel.server_id c, Channel.name c)));
        [apply Hint|done|done|].
      by intros y [-> ->].
    + unfold get_channel.
      apply (fetchone_filter_key Channel.channel_id); [apply Hint|done|done|].
      by intros y [_ ->].
    + unfold get_channel_name_by_id.
      assert (fetchone (filter (λ c', Channel.channel_id c' = Channel.channel_id c)
                          (channels db)) = Some c) as Hone
        by (apply (fetchone_filter_key Channel.channel_id); [apply Hint|done..]).
      unfold fetchone in *.
      destruct (filter _ (channels db)) as [|c0 l0]; simpl in *; [done|].
      by simplify_eq.
  - intros usr Husr. unfold get_user.
    apply (fetchone_filter_key User.user_uuid); [apply Hinv|done..].
Qed.

Lemma lookups_are_exact_witness :
  let db := exec (init "Town Square") empty_db in
  (∀ srv, srv ∈ servers db → get_server_by_name (Server.name srv) db = Some srv) ∧
  (∀ c, c ∈ channels db →
     get_channel_by_name (Channel.server_id c) (Channel.name c) db = Some c ∧
     get_channel (Channel.server_id c) (Channel.channel_id c) db = Some c ∧
     get_channel_name_by_id (Channel.channel_id c) db = Some (Channel.name c)) ∧
  (∀ usr, usr ∈ users db → get_user (User.user_uuid usr) db = Some usr).
Proof. apply lookups_are_exact, reachable_init. Defined.

(** X13: the methods keep the references that the engine does not check.
    In a reachable store every message belongs to a channel that exists,
    in a server that exists, and was written by a registered user. *)
Theorem messages_resolve db m :
  reachable db → m ∈ messages db →
  ∃ c srv,
    c ∈ channels db ∧ Channel.channel_id c = Message.channel_id m ∧
    srv ∈ servers db ∧ Server.server_id srv = Channel.server_id c ∧
    user_exists (Message.user_uuid m) db = true.
Proof.
  intros Hreach Hm.
  pose proof (reachable_invariant db Hreach) as Hinv.
  pose proof (reachable_integrity db Hreach) as Hint.
  pose proof (int_message_channel db Hint m Hm) as Hch.
  apply list_elem_of_fmap in Hch as (c & Hid & Hc).
  destruct (inv_channel_server db Hinv c Hc) as (srv & Hsrv & Hsid).
  exists c, srv. split_and!; [done..|].
  apply user_exists_true. by apply Hint.
Qed.

Lemma messages_resolve_witness :
  let db := exec (create_message_in_channel 100 1 SYSTEM_UUID "SYSTEM" "hello")
              (exec (init "Town Square") empty_db) in
  ∃ c srv,
    c ∈ channels db ∧
    Channel.channel_id c
      = Message.channel_id (Message.mk 1 "hello" 100 SYSTEM_UUID "SYSTEM" 1) ∧
    srv ∈ servers db ∧ Server.server_id srv = Channel.server_id c ∧
    user_exists (Message.user_uuid (Message.mk 1 "hello" 100 SYSTEM_UUID "SYSTEM" 1)) db
      = true.
Proof.
  apply messages_resolve.
  - apply (reachable_call
             (CreateMessageInChannel 100 1 SYSTEM_UUID "SYSTEM" "hello")),
      reachable_init.
  - vm_compute. by left.
Defined.

(** X14: in a reachable store [get_server_from_channel] returns, for the
    id of a channel, the server that the channel belongs to. *)
Theorem get_server_from_channel_resolves db c :
  reachable db → c ∈ channels db →
  ∃ srv, get_server_from_channel (Channel.channel_id c) db = Some srv ∧
         srv ∈ servers db ∧ Server.server_id srv = Channel.server_id c.
Proof.
  intros Hreach Hc.
  pose proof (reachable_invariant db Hreach) as Hinv.
  pose proof (reachable_integrity db Hreach) as Hint.
  destruct (inv_channel_server db Hinv c Hc) as (srv & Hsrv & Hsid).
  exists srv. split_and!; [|done..].
  unfold get_server_from_channel. apply fetchone_unique.
  - apply list_elem_of_fmap. exists (srv, c). split; [done|].
    apply list_elem_of_filter. split; [done|]. by apply elem_of_sql_join.
  - intros y ([srv' c'] & -> & [Hid Hjoin]%list_elem_of_filter)%list_elem_of_fmap.
    apply elem_of_sql_join in Hjoin as (Hsrv' & Hc' & Hon). simpl in *.
    assert (c' = c) as ->
      by (eapply (NoDup_fmap_eq Channel.channel_id); eauto; apply Hint).
    eapply (NoDup_fmap_eq Server.server_id); eauto; [apply Hint|congruence].
Qed.

Lemma get_server_from_channel_resolves_witness :
  let db := exec (init "Town Square") empty_db in
  ∃ srv, get_server_from_channel (Channel.channel_id (Channel.mk 1 "general" 1)) db
           = Some srv ∧
         srv ∈ servers db ∧
         Server.server_id srv = Channel.server_id (Channel.mk 1 "general" 1).
Proof.
  apply get_server_from_channel_resolves; [apply reachable_init|].
  vm_compute. by left.
Defined.

(** X15: the SYSTEM user and the first server are there for good.  In a
    reachable store the SYSTEM uuid is registered, so [create_user] with
    that uuid raises and changes nothing, and the server with id 1, which
    [create_user] joins every new user to, exists. *)
Theorem system_user_and_first_server db name :
  reachable db →
  user_exists SYSTEM_UUID db = true ∧
  create_user name SYSTEM_UUID db = (Raise ValueError, db) ∧
  server_exists 1 db = true.
Proof.
  intros Hint%reachable_integrity.
  assert (user_exists SYSTEM_UUID db = true) as Hsys
    by (apply user_exists_true, Hint).
  split_and!; [done|by apply create_user_registered|].
  apply server_exists_true, Hint.
Qed.

Lemma system_user_and_first_server_witness :
  let db := exec (init "Town Square") empty_db in
  user_exists SYSTEM_UUID db = true ∧
  create_user "impostor" SYSTEM_UUID db = (Raise ValueError, db) ∧
  server_exists 1 db = true.
Proof. apply system_user_and_first_server, reachable_init. Defined.

(** ** Construction: [init] *)

Lemma init_steps title db :
  init title db =
    (server_id ← init_server title;
     init_channel server_id;; init_role;; init_user;; commit) db.
Proof.
  unfold init, init_server, init_channel, init_role, init_user. unfold_M.
  destruct (get_server_by_name title db) as [s|].
  - destruct (get_channel_by_name _ _ _); [|destruct (create_channel_in_server _ _ _) as [[?|?] ?]];
      try done;
      (destruct (get_role_by_name _ _); [|destruct (create_role _ _ _ _) as [[?|?] ?]];
       try done;
       (destruct (user_exists _ _); [|destruct (create_user _ _ _) as [[?|?] ?]]; done)).
  - destruct (create_server title db) as [[sid|?] db1]; [|done].
    destruct (get_channel_by_name _ _ _); [|destruct (create_channel_in_server _ _ _) as [[?|?] ?]];
      try done;
      (destruct (get_role_by_name _ _); [|destruct (create_role _ _ _ _) as [[?|?] ?]];
       try done;
       (destruct (user_exists _ _); [|destruct (create_user _ _ _) as [[?|?] ?]]; done)).
Qed.

Lemma grows_get_server_by_name n db db' srv :
  grows db db' → get_server_by_name n db = Some srv →
  get_server_by_name n db' = Some srv.
Proof. intros Hg. apply fetchone_filter_prefix, Hg. Qed.

Lemma grows_get_channel_by_name s n db db' c :
  grows db db' → get_channel_by_name s n db = Some c →
  get_channel_by_name s n db' = Some c.
Proof. intros Hg. apply fetchone_filter_prefix, Hg. Qed.

Lemma grows_get_role_by_name n db db' r :
  grows db db' → get_role_by_name n db = Some r → get_role_by_name n db' = Some r.
Proof. intros Hg. apply fetchone_filter_prefix, Hg. Qed.

Lemma grows_user_exists u db db' :
  grows db db' → user_exists u db = true → user_exists u db' = true.
Proof.
  intros Hg Hu%user_exists_true. apply user_exists_true.
  eapply elem_of_prefix; [apply Hg|done].
Qed.

Lemma grows_is_user_in_server u s db db' :
  grows db db' → is_user_in_server u s db = true → is_user_in_server u s db' = true.
Proof.
  intros Hg Hu%is_user_in_server_true. apply is_user_in_server_true.
  eapply elem_of_prefix; [apply Hg|done].
Qed.

Lemma exec_grows {A} (m : M A) db : updates m → grows db (exec m db).
Proof. intros Hm. apply rtc_update_grows, Hm. Qed.

Lemma init_server_spec title db :
  ∃ srv db1,
    init_server title db = (Return (Server.server_id srv), db1) ∧
    get_server_by_name title db1 = Some srv ∧ grows db db1.
Proof.
  unfold init_server. unfold_M.
  destruct (get_server_by_name title db) as [srv|] eqn:Hget.
  - exists srv, db. split_and!; [done..|apply grows_refl].
  - rewrite create_server_exec, Hget. simpl.
    eexists (Server.mk _ title), _. split_and!; [done| |].
    + unfold get_server_by_name. simpl. apply fetchone_filter_snoc; [|done].
      by apply (fetchone_filter_None (λ s, Server.name s = title)).
    + pose proof (exec_grows (create_server title) db (create_server_updates title))
        as Hg.
      unfold exec in Hg. by rewrite create_server_exec, Hget in Hg.
Qed.

Lemma get_server_by_name_exists n db srv :
  get_server_by_name n db = Some srv → server_exists (Server.server_id srv) db = true.
Proof.
  unfold get_server_by_name, fetchone.
  intros [_ Hin]%head_Some_elem_of%list_elem_of_filter.
  apply server_exists_true, list_elem_of_fmap. eauto.
Qed.

Lemma init_channel_spec sid db :
  server_exists sid db = true →
  ∃ db2,
    init_channel sid db = (Return tt, db2) ∧
    is_Some (get_channel_by_name sid "general" db2) ∧ grows db db2.
Proof.
  intros Hsid. unfold init_channel. unfold_M.
  destruct (get_channel_by_name sid "general" db) as [c|] eqn:Hget.
  - exists db. split_and!; [done|by rewrite Hget|apply grows_refl].
  - pose proof (exec_grows (create_channel_in_server sid "general") db
                  (create_channel_in_server_updates sid "general")) as Hg.
    unfold exec in Hg.
    rewrite create_channel_in_server_exec, Hget, Hsid in *. simpl in *.
    eexists. split_and!; [done| |done].
    eexists. unfold get_channel_by_name. simpl.
    apply fetchone_filter_snoc; [|done].
    by apply (fetchone_filter_None
                (λ c, Channel.server_id c = sid ∧ Channel.name c = "general")).
Qed.

Lemma init_role_spec db :
  ∃ db3,
    init_role db = (Return tt, db3) ∧
    is_Some (get_role_by_name "DefaultPerms" db3) ∧ grows db db3.
Proof.
  unfold init_role. unfold_M.
  destruct (get_role_by_name "DefaultPerms" db) as [r|] eqn:Hget.
  - exists db. split_and!; [done|by rewrite Hget|apply grows_refl].
  - pose proof (exec_grows (create_role "DefaultPerms" 0 ∅) db
                  (create_role_updates "DefaultPerms" 0 ∅)) as Hg.
    destruct (create_role_in_range db "DefaultPerms" 0 ∅) as (x & Hrun & _ & Hname & _);
      [lia|].
    unfold exec in Hg. rewrite Hrun in *. simpl in *.
    eexists. split_and!; [done| |done].
    eexists. unfold get_role_by_name. simpl.
    apply fetchone_filter_snoc; [|done].
    by apply (fetchone_filter_None (λ r, Role.name r = "DefaultPerms")).
Qed.

Lemma create_user_registers name uuid db :
  user_exists uuid (exec (create_user name uuid) db) = true.
Proof.
  destruct (user_exists uuid db) eqn:Hex.
  - unfold exec. by rewrite create_user_registered.
  - eapply (grows_user_exists _ (add_user (User.mk _ uuid name) db)).
    + pose proof (exec_grows (add_user_to_server uuid 1)
                    (add_user (User.mk (max_rowid (User.rowid <$> users db) + 1)
                                 uuid name) db)
                    (add_user_to_server_updates uuid 1)) as Hg.
      unfold exec in *. rewrite create_user_new by done.
      by destruct (add_user_to_server _ _ _) as [[[]|e] db'].
    + apply user_exists_true. simpl. rewrite fmap_app.
      apply elem_of_app. right. by left.
Qed.

Lemma init_user_spec db :
  user_exists SYSTEM_UUID (exec init_user db) = true ∧ grows db (exec init_user db).
Proof.
  split.
  - unfold init_user, exec. unfold_M.
    destruct (user_exists SYSTEM_UUID db) eqn:Hex; [done|].
    pose proof (create_user_registers "SYSTEM" SYSTEM_UUID db) as Hreg.
    unfold exec in Hreg.
    by destruct (create_user "SYSTEM" SYSTEM_UUID db) as [[?|?] ?].
  - apply exec_grows. unfold init_user.
    apply updates_bind; [apply updates_gets|intros []]; [apply updates_ret|].
    apply updates_bind; [apply create_user_updates|intros _; apply updates_ret].
Qed.

Lemma init_boots title db : booted title (exec (init title) db).
Proof.
  unfold exec. rewrite init_steps. unfold mbind, M_bind at 1.
  destruct (init_server_spec title db) as (srv & db1 & -> & Hsrv & _).
  unfold mbind, M_bind at 1.
  destruct (init_channel_spec (Server.server_id srv) db1) as (db2 & -> & [c Hc] & Hg2);
    [by eapply get_server_by_name_exists|].
  unfold mbind, M_bind at 1.
  destruct (init_role_spec db2) as (db3 & -> & [r Hr] & Hg3).
  destruct (init_user_spec db3) as [Hu Hg4]. unfold exec in Hu, Hg4.
  assert (booted title (init_user db3).2) as Hboot.
  { exists srv. split_and!; [|eexists|eexists|done].
    - eapply grows_get_server_by_name; [|done].
      eapply grows_trans; [exact Hg2|]. eapply grows_trans; [exact Hg3|exact Hg4].
    - eapply grows_get_channel_by_name; [|exact Hc].
      eapply grows_trans; [exact Hg3|exact Hg4].
    - eapply grows_get_role_by_name; [exact Hg4|exact Hr]. }
  unfold mbind, M_bind, commit, mret, M_ret.
  by destruct (init_user db3) as [[[]|e] db4].
Qed.

Lemma init_booted title db : booted title db → init title db = (Return tt, db).
Proof.
  intros (srv & Hsrv & [c Hc] & [r Hr] & Hu).
  unfold init. unfold_M. by rewrite Hsrv, Hc, Hr, Hu.
Qed.

(** X16: [init] sets the store up and is idempotent.  On any store, after
    [init] the server of that title, a channel "general" in it, a role
    "DefaultPerms" and the SYSTEM user exist, also when [init] raised;
    and a second [init] with the same title returns and changes nothing. *)
Theorem init_idempotent title db :
  let db1 := exec (init title) db in
  booted title db1 ∧ init title db1 = (Return tt, db1).
Proof.
  intros db1. split; [apply init_boots|]. apply init_booted, init_boots.
Qed.

(** ** Renaming: [update_username] *)

Lemma filter_fmap_comm {A B} (f : A → B) (P : B → Prop) `{!∀ y, Decision (P y)}
    (l : list A) :
  filter P (f <$> l) = f <$> filter (λ x, P (f x)) l.
Proof.
  induction l as [|a l IH]; [done|].
  rewrite fmap_cons, !filter_cons, IH. by destruct (decide (P (f a))).
Qed.

Lemma update_username_exec uuid n db :
  update_username uuid n db =
    (Return tt,
     set_users
       ((λ u, if decide (User.user_uuid u = uuid)
              then User.mk (User.rowid u) (User.user_uuid u) n else u)
        <$> users db) db).
Proof. done. Qed.

Lemma get_user_update_username uuid n uuid' db :
  get_user uuid' (exec (update_username uuid n) db) =
    (λ u, if decide (User.user_uuid u = uuid)
          then User.mk (User.rowid u) (User.user_uuid u) n else u)
    <$> get_user uuid' db.
Proof.
  unfold exec. rewrite update_username_exec. unfold get_user. simpl.
  rewrite filter_fmap_comm.
  rewrite (list_filter_iff _ (λ u, User.user_uuid u = uuid'));
    [|intros u; by case_decide].
  unfold fetchone. by destruct (filter _ (users db)).
Qed.

(** X17: [update_username] never raises.  It gives the user of that uuid
    the new username and keeps that user's uuid and rowid; it leaves every
    other user and every other table alone; and for a uuid that is not
    registered it changes nothing at all. *)
Theorem update_username_renames db uuid n :
  let db1 := exec (update_username uuid n) db in
  run (update_username uuid n) db = Return tt ∧
  (∀ usr, get_user uuid db = Some usr →
     get_user uuid db1 = Some (User.mk (User.rowid usr) uuid n)) ∧
  (∀ uuid', uuid' ≠ uuid → get_user uuid' db1 = get_user uuid' db) ∧
  (user_exists uuid db = false → db1 = db) ∧
  servers db1 = servers db ∧ memberships db1 = memberships db ∧
  channels db1 = channels db ∧ messages db1 = messages db ∧
  roles db1 = roles db ∧ user_roles db1 = user_roles db.
Proof.
  intros db1. split_and!; try done.
  - intros usr Hget. unfold db1. rewrite get_user_update_username, Hget. simpl.
    unfold get_user, fetchone in Hget.
    apply head_Some_elem_of, list_elem_of_filter in Hget as [Hid _].
    by rewrite decide_True, Hid by done.
  - intros uuid' Hne. unfold db1. rewrite get_user_update_username.
    destruct (get_user uuid' db) as [usr|] eqn:Hget; [|done]. simpl.
    unfold get_user, fetchone in Hget.
    apply head_Some_elem_of, list_elem_of_filter in Hget as [Hid _].
    by rewrite decide_False by congruence.
  - intros Hnot%user_exists_false. unfold db1, exec.
    rewrite update_username_exec. simpl.
    assert ((λ u, if decide (User.user_uuid u = uuid)
                  then User.mk (User.rowid u) (User.user_uuid u) n else u)
            <$> users db = users db) as ->.
    { rewrite <-(list_fmap_id (users db)) at 2. apply list_fmap_ext.
      intros i u Hu. simpl. case_decide as Heq; [|done].
      exfalso. apply Hnot. rewrite <-Heq. apply list_elem_of_fmap.
      exists u. split; [done|]. by eapply list_elem_of_lookup_2. }
    by destruct db.
Qed.

(** ** The history of a channel: [get_messages_in_channel] *)

Lemma order_insert_perm {A} (key : A → Z) x (l : list A) :
  order_insert key x l ≡ₚ x :: l.
Proof.
  induction l as [|y l IH]; simpl; [done|].
  case_decide; [done|]. rewrite IH. apply Permutation_swap.
Qed.

Lemma sql_order_by_perm {A} (key : A → Z) (l : list A) : sql_order_by key l ≡ₚ l.
Proof.
  induction l as [|x l IH]; simpl; [done|].
  by rewrite order_insert_perm, IH.
Qed.

Lemma filter_key_at_most_one {A K} `{EqDecision K} (f : A → K) (k : K) (l : list A) :
  NoDup (f <$> l) →
  filter (λ y, k = f y) l = [] ∨ ∃ x, filter (λ y, k = f y) l = [x].
Proof.
  intros Hnd. destruct (decide (k ∈ f <$> l)) as [Hin|Hout].
  - right. apply list_elem_of_fmap in Hin as (x & -> & Hx). exists x.
    by apply filter_key_unique.
  - left. apply filter_none. intros y Hy ->. apply Hout.
    apply list_elem_of_fmap. eauto.
Qed.

(** With unique uuids the LEFT JOIN gives one row per message, with the
    user that [get_user] finds for the author. *)
Lemma sql_left_join_users msgs db :
  NoDup (User.user_uuid <$> users db) →
  sql_left_join (λ p, Message.user_uuid p.1 = User.user_uuid p.2) msgs (users db)
  = (λ m, (m, get_user (Message.user_uuid m) db)) <$> msgs.
Proof.
  intros Hnd. unfold sql_left_join. induction msgs as [|m msgs IH]; [done|].
  rewrite bind_cons, IH, fmap_cons. f_equal.
  unfold get_user.
  rewrite (list_filter_iff (λ u, User.user_uuid u = Message.user_uuid m)
             (λ u, Message.user_uuid m = User.user_uuid u)) by (intros u; split; congruence).
  destruct (filter_key_at_most_one User.user_uuid (Message.user_uuid m) (users db) Hnd)
    as [Hnil|[u Hone]].
  - simpl in *. by rewrite Hnil.
  - simpl in *. by rewrite Hone.
Qed.

Lemma get_messages_in_channel_perm ch db :
  NoDup (User.user_uuid <$> users db) →
  get_messages_in_channel ch db
  ≡ₚ history_row db <$> filter (λ m, Message.channel_id m = ch) (messages db).
Proof.
  intros Hnd. unfold get_messages_in_channel.
  rewrite sql_order_by_perm, sql_left_join_users by done.
  rewrite filter_fmap_comm, <-list_fmap_compose. done.
Qed.

Lemma get_messages_in_channel_sorted ch db :
  StronglySorted Z.le (row_timestamp <$> get_messages_in_channel ch db).
Proof.
  unfold get_messages_in_channel. rewrite <-list_fmap_compose.
  apply (StronglySorted_fmap_key (λ p : Message.t * option User.t,
                                    Message.timestamp p.1)).
  apply sql_order_by_sorted.
Qed.

(** X18: what a history is.  In a reachable store the history of a
    channel has one row for each message of that channel and no other
    row; the row carries the id, content and timestamp of the message and
    the username that [get_user] finds for its author now, which is never
    missing; and the rows come in ascending order of timestamp. *)
Theorem get_messages_in_channel_lists db ch :
  reachable db →
  get_messages_in_channel ch db
    ≡ₚ history_row db <$> filter (λ m, Message.channel_id m = ch) (messages db) ∧
  (∀ row, row ∈ get_messages_in_channel ch db → is_Some row.2) ∧
  StronglySorted Z.le (row_timestamp <$> get_messages_in_channel ch db).
Proof.
  intros Hreach.
  pose proof (reachable_invariant db Hreach) as Hinv.
  pose proof (reachable_integrity db Hreach) as Hint.
  pose proof (get_messages_in_channel_perm ch db (inv_users_pk db Hinv)) as Hperm.
  split_and!; [done| |apply get_messages_in_channel_sorted].
  intros row Hrow. rewrite Hperm in Hrow.
  apply list_elem_of_fmap in Hrow as (m & -> & [_ Hm]%list_elem_of_filter).
  unfold history_row. simpl.
  pose proof (int_message_author db Hint m Hm) as Hauthor.
  apply user_exists_true in Hauthor.
  destruct (get_user_registered (Message.user_uuid m) db) as (u & -> & _);
    [apply Hinv|done|]. by eexists.
Qed.

Lemma get_messages_in_channel_lists_witness :
  let db := exec (init "Town Square") empty_db in
  get_messages_in_channel 1 db
    ≡ₚ history_row db <$> filter (λ m, Message.channel_id m = 1) (messages db) ∧
  (∀ row, row ∈ get_messages_in_channel 1 db → is_Some row.2) ∧
  StronglySorted Z.le (row_timestamp <$> get_messages_in_channel 1 db).
Proof. apply get_messages_in_channel_lists, reachable_init. Defined.

(** X19: the history shows the author's present name.  In a reachable
    store, after the author of a message is renamed, the row of that
    message in the history of its channel carries the new username; the
    [user_name] stored with the message plays no part. *)
Theorem update_username_rewrites_history db m n :
  reachable db → m ∈ messages db →
  let db1 := exec (update_username (Message.user_uuid m) n) db in
  (Message.message_id m, Message.content m, Message.timestamp m, Some n)
    ∈ get_messages_in_channel (Message.channel_id m) db1.
Proof.
  intros Hreach Hm db1.
  pose proof (reachable_invariant db Hreach) as Hinv.
  pose proof (reachable_integrity db Hreach) as Hint.
  assert (reachable db1) as Hreach1
    by apply (reachable_call (UpdateUsername (Message.user_uuid m) n)), Hreach.
  rewrite (get_messages_in_channel_perm _ db1)
    by apply (reachable_invariant db1 Hreach1).
  apply list_elem_of_fmap. exists m. split.
  - unfold history_row, db1. rewrite get_user_update_username.
    pose proof (int_message_author db Hint m Hm) as Hauthor.
    apply user_exists_true in Hauthor.
    destruct (get_user_registered (Message.user_uuid m) db) as (u & -> & Hid & _);
      [apply Hinv|done|].
    simpl. by rewrite decide_True by done.
  - apply list_elem_of_filter. split; [done|]. done.
Qed.

Lemma update_username_rewrites_history_witness :
  let db := exec (create_message_in_channel 100 1 SYSTEM_UUID "SYSTEM" "hello")
              (exec (init "Town Square") empty_db) in
  let m := Message.mk 1 "hello" 100 SYSTEM_UUID "SYSTEM" 1 in
  let db1 := exec (update_username (Message.user_uuid m) "root") db in
  (Message.message_id m, Message.content m, Message.timestamp m, Some "root")
    ∈ get_messages_in_channel (Message.channel_id m) db1.
Proof.
  apply (update_username_rewrites_history _
           (Message.mk 1 "hello" 100 SYSTEM_UUID "SYSTEM" 1) "root").
  - apply (reachable_call
             (CreateMessageInChannel 100 1 SYSTEM_UUID "SYSTEM" "hello")),
      reachable_init.
  - vm_compute. by left.
Defined.

(** ** Listings by server name and by server id *)

Lemma filter_key_value {A K} `{EqDecision K} (f : A → K) (k : K) (x : A) (l : list A) :
  NoDup (f <$> l) → x ∈ l → f x = k → filter (λ y, f y = k) l = [x].
Proof.
  intros Hnd Hx <-. rewrite <-(filter_key_unique f x l Hnd Hx).
  apply list_filter_iff. intros y. split; congruence.
Qed.

(** Joining with [servers] and keeping the server of one name is keeping
    the rows of that server's id. *)
Lemma join_servers_by_name {A} (sid : A → Z) (l : list A) db n srv :
  NoDup (Server.name <$> servers db) → srv ∈ servers db → Server.name srv = n →
  filter (λ p : A * Server.t, Server.name p.2 = n)
    (sql_join (λ p, sid p.1 = Server.server_id p.2) l (servers db))
  = (λ a, (a, srv)) <$> filter (λ a, sid a = Server.server_id srv) l.
Proof.
  intros Hnd Hsrv Hn. rewrite filter_sql_join. unfold sql_join.
  induction l as [|a l IH]; [done|].
  rewrite bind_cons, IH, filter_cons. simpl.
  rewrite (list_filter_iff _ (λ b, sid a = Server.server_id b ∧ Server.name b = n))
    by (intros b; tauto).
  rewrite <-(list_filter_filter (λ b, sid a = Server.server_id b)
               (λ b, Server.name b = n)).
  rewrite (filter_key_value Server.name n srv) by done.
  rewrite filter_cons, filter_nil.
  by destruct (decide (sid a = Server.server_id srv)).
Qed.

Lemma join_servers_no_name {A} (sid : A → Z) (l : list A) db n :
  get_server_by_name n db = None →
  filter (λ p : A * Server.t, Server.name p.2 = n)
    (sql_join (λ p, sid p.1 = Server.server_id p.2) l (servers db)) = [].
Proof.
  intros Hnone%get_server_by_name_None. apply filter_none.
  intros [a srv] (_ & Hsrv & _)%elem_of_sql_join Hn. simpl in *.
  apply Hnone, list_elem_of_fmap. eauto.
Qed.

Lemma get_server_by_name_elem_of n db srv :
  get_server_by_name n db = Some srv → srv ∈ servers db ∧ Server.name srv = n.
Proof.
  unfold get_server_by_name, fetchone.
  intros [Hn Hin]%head_Some_elem_of%list_elem_of_filter. done.
Qed.

Lemma users_in_server_item0 db n srv :
  integrity db → get_server_by_name n db = Some srv →
  users_in_server n db = item0 <$> users_in_server_id (Server.server_id srv) db.
Proof.
  intros Hint [Hsrv Hn]%get_server_by_name_elem_of.
  unfold users_in_server, users_in_server_id.
  rewrite (join_servers_by_name (λ p, Membership.server_id p.2) _ db n srv)
    by (done || apply Hint).
  by rewrite <-!list_fmap_compose.
Qed.



(** X21: the two channel listings agree.  In a reachable store
    [get_channels_by_server_name] gives, for the name of a server, what
    [get_channels_in_server] gives for its id; for a name that no server
    has it gives the empty list. *)
Theorem get_channels_by_server_name_by_id db n :
  reachable db →
  (∀ srv, get_server_by_name n db = Some srv →
     get_channels_by_server_name n db
     = get_channels_in_server (Server.server_id srv) db) ∧
  (get_server_by_name n db = None → get_channels_by_server_name n db = []).
Proof.
  intros Hint%reachable_integrity. split.
  - intros srv [Hsrv Hn]%get_server_by_name_elem_of.
    unfold get_channels_by_server_name, get_channels_in_server.
    rewrite (join_servers_by_name Channel.server_id _ db n srv)
      by (done || apply Hint).
    by rewrite <-!list_fmap_compose.
  - intros Hnone. unfold get_channels_by_server_name.
    by rewrite (join_servers_no_name Channel.server_id).
Qed.

Lemma get_channels_by_server_name_by_id_witness :
  let db := exec (init "Town Square") empty_db in
  (∀ srv, get_server_by_name "Town Square" db = Some srv →
     get_channels_by_server_name "Town Square" db
     = get_channels_in_server (Server.server_id srv) db) ∧
  (get_server_by_name "Town Square" db = None →
     get_channels_by_server_name "Town Square" db = []).
Proof. apply get_channels_by_server_name_by_id, reachable_init. Defined.

(** ** What was found once is found for good *)

(** X22: no call takes back what a lookup has found.  Whatever calls are
    made, a server, channel or role that a lookup by name returns is
    returned by the same lookup afterwards, also when rows of the same
    name have been added; a registered uuid stays registered and a member
    stays a member. *)
Theorem lookups_are_stable cs db :
  let db' := perform_all cs db in
  (∀ n srv, get_server_by_name n db = Some srv →
            get_server_by_name n db' = Some srv) ∧
  (∀ s n c, get_channel_by_name s n db = Some c →
            get_channel_by_name s n db' = Some c) ∧
  (∀ n r, get_role_by_name n db = Some r → get_role_by_name n db' = Some r) ∧
  (∀ u, user_exists u db = true → user_exists u db' = true) ∧
  (∀ u s, is_user_in_server u s db = true → is_user_in_server u s db' = true).
Proof.
  intros db'. pose proof (perform_all_grows cs db) as Hg. fold db' in Hg.
  split_and!.
  - intros n srv. by apply grows_get_server_by_name.
  - intros s n c. by apply grows_get_channel_by_name.
  - intros n r. by apply grows_get_role_by_name.
  - intros u. by apply grows_user_exists.
  - intros u s. by apply grows_is_user_in_server.
Qed.

(** X23: the default role is found by its name.  In a reachable store
    [get_role_by_name "DefaultPerms"] returns role 1 with rank 0 and the
    default capabilities, whatever roles of that name were created later. *)
Theorem default_role_found db :
  reachable db → get_role_by_name "DefaultPerms" db = Some default_role.
Proof.
  induction 1 as [title|c db _ IH].
  - by rewrite init_empty_db.
  - eapply grows_get_role_by_name; [apply perform_grows|done].
Qed.

Lemma default_role_found_witness :
  get_role_by_name "DefaultPerms"
    (exec (create_role "DefaultPerms" 9 ∅) (exec (init "Town Square") empty_db))
  = Some default_role.
Proof.
  apply default_role_found.
  apply (reachable_call (CreateRole "DefaultPerms" 9 ∅)), reachable_init.
Defined.

(** ** A new user in the listings *)

Lemma elem_of_users_in_server_id s db uname :
  Tuple1 uname ∈ users_in_server_id s db ↔
    ∃ usr, usr ∈ users db ∧ User.username usr = uname ∧
           is_user_in_server (User.user_uuid usr) s db = true.
Proof.
  unfold users_in_server_id, users_join_memberships.
  rewrite list_elem_of_fmap. split.
  - intros ([usr m] & [= ->] & [Hs Hjoin]%list_elem_of_filter).
    apply elem_of_sql_join in Hjoin as (Husr & Hm & Hon). simpl in *.
    exists usr. split_and!; [done..|].
    apply is_user_in_server_true. destruct m; simpl in *. by subst.
  - intros (usr & Husr & <- & Hm%is_user_in_server_true).
    exists (usr, Membership.mk (User.user_uuid usr) s). split; [done|].
    apply list_elem_of_filter. split; [done|]. by apply elem_of_sql_join.
Qed.

Lemma elem_of_servers_with_user uname db n :
  n ∈ servers_with_user uname db ↔
    ∃ srv usr, srv ∈ servers db ∧ usr ∈ users db ∧
      Server.name srv = n ∧ User.username usr = uname ∧
      is_user_in_server (User.user_uuid usr) (Server.server_id srv) db = true.
Proof.
  unfold servers_with_user. rewrite list_elem_of_fmap. split.
  - intros ([[srv m] usr] & -> & [Hname Hjoin]%list_elem_of_filter).
    apply elem_of_sql_join in Hjoin as (Hjoin & Husr & Hon).
    apply elem_of_sql_join in Hjoin as (Hsrv & Hm & Hon'). simpl in *.
    exists srv, usr. split_and!; [done..|].
    apply is_user_in_server_true. destruct m; simpl in *. by subst.
  - intros (srv & usr & Hsrv & Husr & <- & <- & Hm%is_user_in_server_true).
    exists (srv, Membership.mk (User.user_uuid usr) (Server.server_id srv), usr).
    split; [done|]. apply list_elem_of_filter. split; [done|].
    apply elem_of_sql_join. split_and!; [|done..].
    by apply elem_of_sql_join.
Qed.

(** X24: a user who has just been created is in the listings.  In a
    reachable store, after [create_user] returns for a new uuid, the
    first server is among [servers_with_user] of the new username, and
    the username is among the members that [users_in_server_id] and
    [users_in_server] list for that server. *)
Theorem create_user_is_listed db name uuid :
  reachable db →
  user_exists uuid db = false → is_user_in_server uuid 1 db = false →
  let db1 := exec (create_user name uuid) db in
  ∃ srv, get_server_by_name (Server.name srv) db1 = Some srv ∧
         Server.server_id srv = 1 ∧
         Server.name srv ∈ servers_with_user name db1 ∧
         Tuple1 name ∈ users_in_server_id 1 db1 ∧
         name ∈ users_in_server (Server.name srv) db1.
Proof.
  intros Hreach Hnew Hout db1.
  assert (reachable db1) as Hreach1
    by apply (reachable_call (CreateUser name uuid)), Hreach.
  pose proof (reachable_integrity db1 Hreach1) as Hint1.
  pose proof (int_first_server db1 Hint1) as Hfirst.
  apply list_elem_of_fmap in Hfirst as (srv & Hid & Hsrv).
  assert (get_server_by_name (Server.name srv) db1 = Some srv) as Hget.
  { unfold get_server_by_name.
    apply (fetchone_filter_key Server.name); [apply Hint1|done..]. }
  assert (∃ usr, usr ∈ users db1 ∧ User.username usr = name ∧
                 is_user_in_server (User.user_uuid usr) 1 db1 = true)
    as (usr & Husr & Hname & Hmember).
  { unfold db1, exec. rewrite create_user_new by done.
    rewrite add_user_to_server_new by done. simpl.
    exists (User.mk (max_rowid (User.rowid <$> users db) + 1) uuid name).
    unfold exec. rewrite assign_role_to_user_exec. simpl.
    split_and!; [| done |].
    - case_decide; simpl; apply elem_of_app; right; by left.
    - apply is_user_in_server_true.
      case_decide; simpl; apply elem_of_app; right; by left. }
  assert (Tuple1 name ∈ users_in_server_id 1 db1) as Hlisted
    by (apply elem_of_users_in_server_id; eauto).
  exists srv. split_and!; [done|done| |done|].
  - apply elem_of_servers_with_user. exists srv, usr.
    split_and!; [done..|]. by rewrite <-Hid.
  - rewrite (users_in_server_item0 db1 _ srv Hint1 Hget).
    rewrite <-Hid. apply list_elem_of_fmap. by exists (Tuple1 name).
Qed.

Lemma create_user_is_listed_witness :
  let db1 := exec (create_user "alice" "u1") (exec (init "Town Square") empty_db) in
  ∃ srv, get_server_by_name (Server.name srv) db1 = Some srv ∧
         Server.server_id srv = 1 ∧
         Server.name srv ∈ servers_with_user "alice" db1 ∧
         Tuple1 "alice" ∈ users_in_server_id 1 db1 ∧
         "alice" ∈ users_in_server (Server.name srv) db1.
Proof.
  apply create_user_is_listed; [apply reachable_init|reflexivity..].
Defined.

(** ** Roles with their users: [get_roles_with_users_in_server] *)

Lemma dict_append_keys d k v :
  fst <$> dict_append d k v =
    if decide (k ∈ fst <$> d) then fst <$> d else (fst <$> d) ++ [k].
Proof.
  induction d as [|[k' vs] d IH].
  - by destruct (decide (k ∈ fst <$> [])) as [[]%elem_of_nil|].
  - cbn [dict_append]. destruct (decide (k' = k)) as [->|Hne]; rewrite !fmap_cons.
    + rewrite decide_True; [done|]. by left.
    + rewrite IH. cbn [fst]. destruct (decide (k ∈ fst <$> d)) as [Hin|Hout].
      * rewrite decide_True; [done|]. by right.
      * rewrite decide_False; [done|]. by intros [->|?]%elem_of_cons.
Qed.

Lemma dict_append_NoDup d k v :
  NoDup (fst <$> d) → NoDup (fst <$> dict_append d k v).
Proof.
  intros Hnd. rewrite dict_append_keys. case_decide; [done|].
  by apply NoDup_snoc.
Qed.

Lemma dict_append_nonempty d k v :
  Forall (λ p, p.2 ≠ []) d → Forall (λ p, p.2 ≠ []) (dict_append d k v).
Proof.
  induction 1 as [|[k' vs] d Hp Hd IH]; simpl.
  - by repeat constructor.
  - case_decide; constructor; simpl; try done. by destruct vs.
Qed.

Lemma dict_append_listed d k v k' v' :
  (∃ vs, (k', vs) ∈ dict_append d k v ∧ v' ∈ vs) ↔
  (∃ vs, (k', vs) ∈ d ∧ v' ∈ vs) ∨ (k' = k ∧ v' = v).
Proof.
  induction d as [|[k0 vs0] d IH]; simpl.
  - split.
    + intros (vs & [= -> ->]%list_elem_of_singleton & ->%list_elem_of_singleton).
      by right.
    + intros [(vs & []%elem_of_nil & _)|[-> ->]].
      exists [v]. split; by apply list_elem_of_singleton.
  - destruct (decide (k0 = k)) as [->|Hne].
    + split.
      * intros (vs & [[= -> ->]|Hin]%elem_of_cons & Hv).
        -- apply elem_of_app in Hv as [Hv| ->%list_elem_of_singleton].
           ++ left. exists vs0. split; [by left|done].
           ++ by right.
        -- left. exists vs. split; [by right|done].
      * intros [(vs & [[= -> ->]|Hin]%elem_of_cons & Hv)|[-> ->]].
        -- exists (vs0 ++ [v]). split; [by left|]. apply elem_of_app. by left.
        -- exists vs. split; [by right|done].
        -- exists (vs0 ++ [v]). split; [by left|].
           apply elem_of_app. right. by left.
    + split.
      * intros (vs & [[= -> ->]|Hin]%elem_of_cons & Hv).
        -- left. exists vs0. split; [by left|done].
        -- destruct (proj1 IH) as [(vs' & Hin' & Hv')|Hnew]; [by eauto| |by right].
           left. exists vs'. split; [by right|done].
      * intros [(vs & [[= -> ->]|Hin]%elem_of_cons & Hv)|Hnew].
        -- exists vs0. split; [by left|done].
        -- destruct (proj2 IH) as (vs' & Hin' & Hv'); [left; by eauto|].
           exists vs'. split; [by right|done].
        -- destruct (proj2 IH) as (vs' & Hin' & Hv'); [by right|].
           exists vs'. split; [by right|done].
Qed.

Lemma dict_append_head d k0 vs0 k v :
  ∃ vs d', dict_append ((k0, vs0) :: d) k v = (k0, vs) :: d'.
Proof. simpl. case_decide; eauto. Qed.

(** The loop over the rows, started on any [role_map]. *)
Lemma group_NoDup rows d :
  NoDup (fst <$> d) → NoDup (fst <$> foldl (λ role_map row, dict_append role_map row.1 row.2) d rows).
Proof.
  revert d. induction rows as [|row rows IH]; intros d Hd; [done|].
  simpl. by apply IH, dict_append_NoDup.
Qed.

Lemma group_nonempty rows d :
  Forall (λ p, p.2 ≠ []) d → Forall (λ p, p.2 ≠ []) (foldl (λ role_map row, dict_append role_map row.1 row.2) d rows).
Proof.
  revert d. induction rows as [|row rows IH]; intros d Hd; [done|].
  simpl. by apply IH, dict_append_nonempty.
Qed.

Lemma group_listed rows d k v :
  (∃ vs, (k, vs) ∈ foldl (λ role_map row, dict_append role_map row.1 row.2) d rows ∧ v ∈ vs) ↔
  (∃ vs, (k, vs) ∈ d ∧ v ∈ vs) ∨ (k, v) ∈ rows.
Proof.
  revert d. induction rows as [|[k0 v0] rows IH]; intros d; simpl.
  - split; [by left|]. by intros [?|?%elem_of_nil].
  - rewrite IH, dict_append_listed, elem_of_cons. simpl.
    split; [intros [[?|[-> ->]]|?]|intros [?|[[= -> ->]|?]]]; auto.
Qed.

Lemma group_head rows k0 vs0 d :
  ∃ vs d', foldl (λ role_map row, dict_append role_map row.1 row.2) ((k0, vs0) :: d) rows = (k0, vs) :: d'.
Proof.
  revert vs0 d. induction rows as [|row rows IH]; intros vs0 d; [simpl; eauto|].
  cbn [foldl].
  destruct (dict_append_head d k0 vs0 row.1 row.2) as (vs & d' & ->). apply IH.
Qed.

Lemma order_insert_by_perm {A} (le : A → A → bool) x (l : list A) :
  order_insert_by le x l ≡ₚ x :: l.
Proof.
  induction l as [|y l IH]; simpl; [done|].
  destruct (le x y); [done|]. rewrite IH. apply Permutation_swap.
Qed.

Lemma sql_order_by_le_perm {A} (le : A → A → bool) (l : list A) :
  sql_order_by_le le l ≡ₚ l.
Proof.
  induction l as [|x l IH]; simpl; [done|].
  by rewrite order_insert_by_perm, IH.
Qed.

Lemma sql_order_by_le_sorted {A} (le : A → A → bool) (R : A → A → Prop) (l : list A) :
  (∀ x y, le x y = true → R x y) → (∀ x y, le x y = false → R y x) →
  Transitive R → StronglySorted R (sql_order_by_le le l).
Proof.
  intros Hle Hgt Htrans. induction l as [|x l IH]; simpl; [constructor|].
  revert IH. generalize (sql_order_by_le le l). clear l.
  intros l. induction 1 as [|y l Hl IH Hy]; simpl.
  - by repeat constructor.
  - destruct (le x y) eqn:Hxy.
    + constructor; [by constructor|]. constructor; [by apply Hle|].
      eapply Forall_impl; [exact Hy|]. intros z Hz. simpl in Hz.
      etrans; [by apply Hle|done].
    + constructor; [done|].
      rewrite order_insert_by_perm. constructor; [by apply Hgt|done].
Qed.

Lemma elem_of_roles_with_users_rows s db p :
  p ∈ roles_with_users_rows s db ↔
    p.1.1 ∈ roles db ∧ p.1.2 ∈ user_roles db ∧ p.2 ∈ users db ∧
    Role.role_id p.1.1 = UserRole.role_id p.1.2 ∧
    UserRole.user_uuid p.1.2 = User.user_uuid p.2 ∧
    UserRole.server_id p.1.2 = s.
Proof.
  unfold roles_with_users_rows.
  rewrite list_elem_of_filter, !elem_of_sql_join. tauto.
Qed.

(** X25: how roles and users are grouped.  The result has one entry for
    each role name, no name twice, so that roles sharing a name share an
    entry; no entry is empty; and a username stands under a role name
    exactly when some user of that username holds, in the server, some
    role of that name. *)
Theorem get_roles_with_users_in_server_groups db s :
  let result := get_roles_with_users_in_server s db in
  NoDup (fst <$> result) ∧
  (∀ k vs, (k, vs) ∈ result → vs ≠ []) ∧
  (∀ k v, (∃ vs, (k, vs) ∈ result ∧ v ∈ vs) ↔
     ∃ r ur usr,
       r ∈ roles db ∧ ur ∈ user_roles db ∧ usr ∈ users db ∧
       Role.role_id r = UserRole.role_id ur ∧
       UserRole.user_uuid ur = User.user_uuid usr ∧
       UserRole.server_id ur = s ∧
       Role.name r = k ∧ User.username usr = v).
Proof.
  intros result. unfold result, get_roles_with_users_in_server. split_and!.
  - apply group_NoDup. constructor.
  - intros k vs Hin.
    pose proof (group_nonempty
      ((λ p, (Role.name p.1.1, User.username p.2)) <$>
       sql_order_by_le (λ p q, rank_desc_name_asc p.1.1 q.1.1)
         (roles_with_users_rows s db)) [] (Forall_nil_2 _)) as Hall.
    rewrite Forall_forall in Hall. by apply (Hall (k, vs)).
  - intros k v. rewrite group_listed, list_elem_of_fmap. split.
    + intros [(vs & []%elem_of_nil & _)|([[r ur] usr] & [= -> ->] & Hp)].
      rewrite sql_order_by_le_perm in Hp.
      apply elem_of_roles_with_users_rows in Hp. simpl in Hp.
      exists r, ur, usr. tauto.
    + intros (r & ur & usr & Hr & Hur & Husr & Hid & Hu & Hs & <- & <-).
      right. exists (r, ur, usr). split; [done|].
      rewrite sql_order_by_le_perm. by apply elem_of_roles_with_users_rows.
Qed.

(** X26: seniority comes first.  When the result is not empty, its first
    entry carries the name of a role that is held in the server and whose
    rank no role held in the server exceeds. *)
Theorem get_roles_with_users_in_server_first db s k vs rest :
  get_roles_with_users_in_server s db = (k, vs) :: rest →
  ∃ r, Role.name r = k ∧
       (∃ ur usr, (r, ur, usr) ∈ roles_with_users_rows s db) ∧
       ∀ p, p ∈ roles_with_users_rows s db → Role.rank p.1.1 ≤ Role.rank r.
Proof.
  unfold get_roles_with_users_in_server.
  pose proof (sql_order_by_le_perm (λ p q, rank_desc_name_asc p.1.1 q.1.1)
                (roles_with_users_rows s db)) as Hperm.
  pose proof (sql_order_by_le_sorted (λ p q, rank_desc_name_asc p.1.1 q.1.1)
                (λ p q : Role.t * UserRole.t * User.t,
                   Role.rank q.1.1 ≤ Role.rank p.1.1)
                (roles_with_users_rows s db)) as Hsorted.
  destruct (sql_order_by_le _ (roles_with_users_rows s db)) as [|[[r ur] usr] sorted];
    [done|].
  rewrite fmap_cons. cbn [foldl dict_append fst snd]. intros Hres.
  destruct (group_head ((λ p, (Role.name p.1.1, User.username p.2)) <$> sorted)
              (Role.name r) [User.username usr] []) as (vs' & d' & Hhead).
  rewrite Hhead in Hres. injection Hres as <- _ _.
  exists r. split_and!; [done| |].
  - exists ur, usr. rewrite <-Hperm. by left.
  - assert (StronglySorted (λ p q : Role.t * UserRole.t * User.t,
                              Role.rank q.1.1 ≤ Role.rank p.1.1)
              ((r, ur, usr) :: sorted)) as Hs.
    { apply Hsorted.
      - intros x y. unfold rank_desc_name_asc.
        intros [Hlt|[Heq _]%andb_prop]%orb_prop.
        + apply bool_decide_eq_true in Hlt. lia.
        + apply bool_decide_eq_true in Heq. lia.
      - intros x y. unfold rank_desc_name_asc.
        intros [Hlt _]%orb_false_elim. apply bool_decide_eq_false in Hlt. lia.
      - intros x y z ? ?. lia. }
    apply StronglySorted_cons in Hs as [Hall _]. rewrite Forall_forall in Hall.
    intros p Hp. rewrite <-Hperm in Hp.
    apply elem_of_cons in Hp as [->|Hp]; [done|]. by apply Hall.
Qed.

Lemma get_roles_with_users_in_server_first_witness :
  ∃ r, Role.name r = "DefaultPerms" ∧
       (∃ ur usr, (r, ur, usr)
          ∈ roles_with_users_rows 1 (exec (init "Town Square") empty_db)) ∧
       ∀ p, p ∈ roles_with_users_rows 1 (exec (init "Town Square") empty_db) →
            Role.rank p.1.1 ≤ Role.rank r.
Proof.
  apply (get_roles_with_users_in_server_first
           (exec (init "Town Square") empty_db) 1 "DefaultPerms" ["SYSTEM"] []).
  reflexivity.
Defined.

(** ** Users by name, and what [create_user] returns *)

Lemma create_user_users name uuid db :
  user_exists uuid db = false →
  users (exec (create_user name uuid) db)
  = users db ++ [User.mk (max_rowid (User.rowid <$> users db) + 1) uuid name].
Proof.
  intros Hnew. unfold exec. rewrite create_user_new by done.
  set (db1 := add_user _ db).
  destruct (is_user_in_server uuid 1 db1) eqn:Hin.
  - by rewrite add_user_to_server_member.
  - rewrite add_user_to_server_new by done. simpl. unfold exec.
    rewrite assign_role_to_user_exec. simpl. by case_decide.
Qed.

(** X27: usernames are not keys, and the oldest user keeps the name.
    After [create_user] for a new uuid, whether it returned or raised,
    some user has the username; [get_user_by_name] still returns the user
    it returned before when the name was in use, and the new user
    otherwise. *)
Theorem create_user_by_name db name uuid :
  user_exists uuid db = false →
  let db1 := exec (create_user name uuid) db in
  user_exists_by_name name db1 = true ∧
  (∀ usr, get_user_by_name name db = Some usr →
          get_user_by_name name db1 = Some usr) ∧
  (get_user_by_name name db = None →
   ∃ usr, get_user_by_name name db1 = Some usr ∧ User.user_uuid usr = uuid ∧
          usr ∉ users db).
Proof.
  intros Hnew db1.
  pose proof (create_user_users name uuid db Hnew) as Husers. fold db1 in Husers.
  split_and!.
  - unfold user_exists_by_name. apply is_not_None_select_1.
    eexists. apply list_elem_of_filter. split; [|rewrite Husers].
    2: { apply elem_of_app. right. by left. }
    done.
  - intros usr Hget. unfold get_user_by_name in *.
    eapply fetchone_filter_prefix; [|exact Hget].
    rewrite Husers. by apply prefix_app_r.
  - intros Hnone. eexists. unfold get_user_by_name in *. rewrite Husers.
    split_and!; [apply fetchone_filter_snoc; [|done]|done|].
    + by apply (fetchone_filter_None (λ u, User.username u = name)).
    + intros Hin. apply user_exists_false in Hnew. apply Hnew.
      apply list_elem_of_fmap. eexists. split; [|exact Hin]. done.
Qed.

Lemma create_user_by_name_witness :
  let db := exec (init "Town Square") empty_db in
  let db1 := exec (create_user "SYSTEM" "u1") db in
  user_exists_by_name "SYSTEM" db1 = true ∧
  (∀ usr, get_user_by_name "SYSTEM" db = Some usr →
          get_user_by_name "SYSTEM" db1 = Some usr) ∧
  (get_user_by_name "SYSTEM" db = None →
   ∃ usr, get_user_by_name "SYSTEM" db1 = Some usr ∧ User.user_uuid usr = "u1" ∧
          usr ∉ users db).
Proof. apply (create_user_by_name _ "SYSTEM" "u1"). reflexivity. Defined.

(** X28: what [create_user] returns.  When it returns, the value is the
    rowid that the engine gave the new row of [users], an integer that no
    user had as rowid before; it is not the uuid. *)
Theorem create_user_returns_lastrowid db name uuid :
  user_exists uuid db = false → is_user_in_server uuid 1 db = false →
  ∃ usr,
    run (create_user name uuid) db = Return (User.rowid usr) ∧
    usr ∈ users (exec (create_user name uuid) db) ∧
    User.user_uuid usr = uuid ∧
    (User.rowid usr ∉ User.rowid <$> users db) ∧
    User.rowid usr = max_rowid (User.rowid <$> users db) + 1.
Proof.
  intros Hnew Hout.
  exists (User.mk (max_rowid (User.rowid <$> users db) + 1) uuid name).
  split_and!; [| |done|apply max_rowid_fresh|done].
  - unfold run. rewrite create_user_new by done.
    by rewrite add_user_to_server_new by done.
  - rewrite create_user_users by done. apply elem_of_app. right. by left.
Qed.

Lemma create_user_returns_lastrowid_witness :
  ∃ usr,
    run (create_user "alice" "u1") (exec (init "Town Square") empty_db)
      = Return (User.rowid usr) ∧
    usr ∈ users (exec (create_user "alice" "u1") (exec (init "Town Square") empty_db)) ∧
    User.user_uuid usr = "u1" ∧
    (User.rowid usr ∉ User.rowid <$> users (exec (init "Town Square") empty_db)) ∧
    User.rowid usr
      = max_rowid (User.rowid <$> users (exec (init "Town Square") empty_db)) + 1.
Proof. apply create_user_returns_lastrowid; reflexivity. Defined.
